(** * Canvas document store, history engine, arrangement and reconciliation

    A shallow embedding of [src/store/canvasStore.ts] (the zustand store
    [useCanvasStore]) and of the selection handlers and the node/drawable
    synchronisation effect of [src/components/Canvas.tsx]; further down, of
    the video store and of the handlers of [src/components/VideoCanvas.tsx].

    Modelling conventions.
    - A TypeScript [number] is an exact rational ([Q]).  NaN, the infinities,
      signed zero and rounding are outside the node records; numeric
      comparisons of the source ([>], [||] on numbers) are the boolean tests
      on [Q], which respect [==].  Module [Runtime] has the values that the
      records leave out, for the JSON copies of the history engine.
    - Arrays are lists; every store action builds fresh arrays and fresh
      objects (spread syntax, [filter], [map]), so values stand for objects.
    - The ambient calls [nanoid()] and [Date.now()] are answered by an
      environment record handed to each action.
    - A [TypeError] raised by reading a property of [undefined] is the
      [Throw] result. *)

From Stdlib Require Import String List ZArith QArith Qabs Bool Arith Lia Lqa.
From Stdlib Require Import Permutation Sorted.
Import ListNotations.

Local Open Scope string_scope.
Local Open Scope list_scope.
Local Open Scope Q_scope.

(** ** JavaScript primitives used by the store *)

Module Js.

(** [a > b] on numbers. *)
Definition gt (a b : Q) : bool := negb (Qle_bool a b).

(** [a || d] on numbers: zero is falsy. *)
Definition or_default (a d : Q) : Q := if Qeq_bool a 0 then d else a.

(** A number made from an array length or an index. *)
Definition of_nat (n : nat) : Q := inject_Z (Z.of_nat n).

(** [arr.includes(v)] on an array of strings. *)
Definition includes (arr : list string) (v : string) : bool :=
  existsb (String.eqb v) arr.

(** [arr.slice(0, end)]: a negative [end] counts from the end of the
    array, and the bound is clamped to the array. *)
Definition slice0 {A : Type} (arr : list A) (en : Z) : list A :=
  let len := Z.of_nat (length arr) in
  let k := if (en <? 0)%Z then Z.max (len + en) 0 else Z.min en len in
  firstn (Z.to_nat k) arr.

(** [arr.shift()]: drops the first element. *)
Definition shift {A : Type} (arr : list A) : list A := tl arr.

(** [arr[i]] for an integer index; [None] is [undefined]. *)
Definition index {A : Type} (arr : list A) (i : Z) : option A :=
  if (i <? 0)%Z then None else nth_error arr (Z.to_nat i).

(** [arr.findIndex(p)]; [None] is the result [-1]. *)
Fixpoint findIndex {A : Type} (p : A -> bool) (arr : list A) : option nat :=
  match arr with
  | [] => None
  | a :: rest =>
      if p a then Some 0%nat
      else match findIndex p rest with
           | Some i => Some (S i)
           | None => None
           end
  end.

(** [arr[i] = v] for an index inside the array. *)
Fixpoint assign {A : Type} (arr : list A) (i : nat) (v : A) : list A :=
  match arr, i with
  | [], _ => []
  | _ :: rest, O => v :: rest
  | a :: rest, S j => a :: assign rest j v
  end.

(** [arr.sort(cmp)].  The sort of ECMAScript is stable, and the
    comparators of the store ([a.x - b.x], [a.y - b.y]) are consistent on
    rationals, so the result is the stable sort: each element is inserted,
    in array order, before the first element it is strictly smaller
    than. *)
Fixpoint insert {A : Type} (cmp : A -> A -> Q) (a : A) (sorted : list A) : list A :=
  match sorted with
  | [] => [a]
  | h :: rest => if gt 0 (cmp a h) then a :: h :: rest else h :: insert cmp a rest
  end.

Definition sort {A : Type} (cmp : A -> A -> Q) (arr : list A) : list A :=
  fold_left (fun acc a => insert cmp a acc) arr [].

(** [Math.max(...values)] on a non-empty argument list (the store only
    calls it with two or more values; the empty case, [-Infinity] in
    JavaScript, has no rational counterpart and is given as 0). *)
Definition max2 (a b : Q) : Q := if gt b a then b else a.

Definition Math_max (values : list Q) : Q :=
  match values with
  | [] => 0
  | v :: rest => fold_left max2 rest v
  end.

(** [Math.ceil(Math.sqrt(n))] for an array length [n]: the least [c] with
    [n <= c * c].  (IEEE square root is correctly rounded, so on array
    lengths the floating-point expression is this integer.) *)
Definition ceil_sqrt (n : nat) : nat := Nat.sqrt_up n.

End Js.

(** ** Results of store actions *)

Inductive result (A : Type) : Type :=
| Ok (a : A)
| Throw.
Arguments Ok {A} a.
Arguments Throw {A}.

Definition bind {A B : Type} (r : result A) (k : A -> result B) : result B :=
  match r with
  | Ok a => k a
  | Throw => Throw
  end.

(** ** Node model ([src/services/types.ts]) *)

Inductive NodeType : Type := Image | Video | Group | Text.

Inductive TextAlign : Type := AlignLeft | AlignCenter | AlignRight | AlignJustify.

Record CanvasNode : Type := mkNode {
  id : string;
  type : NodeType;
  assetId : option string;
  url : option string;
  x : Q;
  y : Q;
  width : Q;
  height : Q;
  rotation : Q;
  opacity : Q;
  locked : bool;
  zIndex : Q;
  blendMode : option string;
  shadow : option bool;
  radius : option Q;
  text : option string;
  fontFamily : option string;
  fontSize : option Q;
  fontWeight : option (string + Q);
  fill : option string;
  textAlign : option TextAlign
}.

(** [Partial<CanvasNode>]: [None] is an absent key. *)
Record PartialNode : Type := mkPartial {
  p_id : option string;
  p_type : option NodeType;
  p_assetId : option (option string);
  p_url : option (option string);
  p_x : option Q;
  p_y : option Q;
  p_width : option Q;
  p_height : option Q;
  p_rotation : option Q;
  p_opacity : option Q;
  p_locked : option bool;
  p_zIndex : option Q;
  p_blendMode : option (option string);
  p_shadow : option (option bool);
  p_radius : option (option Q);
  p_text : option (option string);
  p_fontFamily : option (option string);
  p_fontSize : option (option Q);
  p_fontWeight : option (option (string + Q));
  p_fill : option (option string);
  p_textAlign : option (option TextAlign)
}.

Definition over {A : Type} (old : A) (upd : option A) : A :=
  match upd with
  | Some v => v
  | None => old
  end.

(** [{ ...node, ...updates }] *)
Definition merge (node : CanvasNode) (updates : PartialNode) : CanvasNode :=
  {| id := over (id node) (p_id updates);
     type := over (type node) (p_type updates);
     assetId := over (assetId node) (p_assetId updates);
     url := over (url node) (p_url updates);
     x := over (x node) (p_x updates);
     y := over (y node) (p_y updates);
     width := over (width node) (p_width updates);
     height := over (height node) (p_height updates);
     rotation := over (rotation node) (p_rotation updates);
     opacity := over (opacity node) (p_opacity updates);
     locked := over (locked node) (p_locked updates);
     zIndex := over (zIndex node) (p_zIndex updates);
     blendMode := over (blendMode node) (p_blendMode updates);
     shadow := over (shadow node) (p_shadow updates);
     radius := over (radius node) (p_radius updates);
     text := over (text node) (p_text updates);
     fontFamily := over (fontFamily node) (p_fontFamily updates);
     fontSize := over (fontSize node) (p_fontSize updates);
     fontWeight := over (fontWeight node) (p_fontWeight updates);
     fill := over (fill node) (p_fill updates);
     textAlign := over (textAlign node) (p_textAlign updates) |}.

(** [{ ...node, x: nx, y: ny }] *)
Definition with_xy (node : CanvasNode) (nx ny : Q) : CanvasNode :=
  {| id := id node; type := type node; assetId := assetId node; url := url node;
     x := nx; y := ny;
     width := width node; height := height node; rotation := rotation node;
     opacity := opacity node; locked := locked node; zIndex := zIndex node;
     blendMode := blendMode node; shadow := shadow node; radius := radius node;
     text := text node; fontFamily := fontFamily node; fontSize := fontSize node;
     fontWeight := fontWeight node; fill := fill node; textAlign := textAlign node |}.

(** [{ ...node, id: nid, zIndex: z }] *)
Definition with_id_zIndex (node : CanvasNode) (nid : string) (z : Q) : CanvasNode :=
  {| id := nid; type := type node; assetId := assetId node; url := url node;
     x := x node; y := y node;
     width := width node; height := height node; rotation := rotation node;
     opacity := opacity node; locked := locked node; zIndex := z;
     blendMode := blendMode node; shadow := shadow node; radius := radius node;
     text := text node; fontFamily := fontFamily node; fontSize := fontSize node;
     fontWeight := fontWeight node; fill := fill node; textAlign := textAlign node |}.

(** [JSON.parse(JSON.stringify(nodes))]: every node is rebuilt field by
    field (with rational numbers and [None] for absent keys nothing is lost
    in the round trip). *)
Definition json_node (node : CanvasNode) : CanvasNode :=
  {| id := id node; type := type node; assetId := assetId node; url := url node;
     x := x node; y := y node;
     width := width node; height := height node; rotation := rotation node;
     opacity := opacity node; locked := locked node; zIndex := zIndex node;
     blendMode := blendMode node; shadow := shadow node; radius := radius node;
     text := text node; fontFamily := fontFamily node; fontSize := fontSize node;
     fontWeight := fontWeight node; fill := fill node; textAlign := textAlign node |}.

Definition json_clone (nodes : list CanvasNode) : list CanvasNode :=
  map json_node nodes.

(** ** The store ([src/store/canvasStore.ts]) *)

Inductive CanvasMode : Type := Select | Chat | Dragdrop.

Inductive Alignment : Type := Row | Column | Grid.

Record HistoryState : Type := mkHistoryState {
  hs_nodes : list CanvasNode;
  timestamp : Z
}.

(** The fields of [CanvasStore] that the canvas actions read or write.  The
    remaining fields (project, assets, zoom, pan, flags, loading state) are
    touched by none of them. *)
Record Store : Type := mkStore {
  nodes : list CanvasNode;
  selectedNodeIds : list string;
  canvasMode : CanvasMode;
  history : list HistoryState;
  historyIndex : Z
}.

(** What the outside world answers during one action: [now] is the value of
    [Date.now()], [nanoid k] the value of the [k]-th call of [nanoid()]. *)
Record Env : Type := mkEnv {
  now : Z;
  nanoid : nat -> string
}.

Definition initial : Store :=
  {| nodes := []; selectedNodeIds := []; canvasMode := Select;
     history := []; historyIndex := (-1)%Z |}.

Definition set_nodes (s : Store) (ns : list CanvasNode) : Store :=
  {| nodes := ns; selectedNodeIds := selectedNodeIds s; canvasMode := canvasMode s;
     history := history s; historyIndex := historyIndex s |}.

Definition set_selectedNodeIds (s : Store) (ids : list string) : Store :=
  {| nodes := nodes s; selectedNodeIds := ids; canvasMode := canvasMode s;
     history := history s; historyIndex := historyIndex s |}.

Definition set_nodes_selection (s : Store) (ns : list CanvasNode) (ids : list string) : Store :=
  {| nodes := ns; selectedNodeIds := ids; canvasMode := canvasMode s;
     history := history s; historyIndex := historyIndex s |}.

Definition set_history (s : Store) (h : list HistoryState) (i : Z) : Store :=
  {| nodes := nodes s; selectedNodeIds := selectedNodeIds s; canvasMode := canvasMode s;
     history := h; historyIndex := i |}.

Definition set_canvasMode (s : Store) (m : CanvasMode) : Store :=
  {| nodes := nodes s; selectedNodeIds := selectedNodeIds s; canvasMode := m;
     history := history s; historyIndex := historyIndex s |}.

(** *** History engine *)

Definition saveHistory (e : Env) (s : Store) : Store :=
  let newHistory := Js.slice0 (history s) (historyIndex s + 1) in
  let newHistory :=
    newHistory ++ [ {| hs_nodes := json_clone (nodes s); timestamp := now e |} ] in
  let newHistory :=
    if (50 <? length newHistory)%nat then Js.shift newHistory else newHistory in
  set_history s newHistory (Z.of_nat (length newHistory) - 1).

(** [state.history[newIndex].nodes] raises a [TypeError] when the entry is
    [undefined]. *)
Definition restore (s : Store) (newIndex : Z) : result Store :=
  match Js.index (history s) newIndex with
  | Some entry =>
      Ok {| nodes := json_clone (hs_nodes entry);
            selectedNodeIds := [];
            canvasMode := canvasMode s;
            history := history s;
            historyIndex := newIndex |}
  | None => Throw
  end.

Definition undo (s : Store) : result Store :=
  if (0 <? historyIndex s)%Z
  then restore s (historyIndex s - 1)
  else Ok s.

Definition redo (s : Store) : result Store :=
  if (historyIndex s <? Z.of_nat (length (history s)) - 1)%Z
  then restore s (historyIndex s + 1)
  else Ok s.

(** *** Canvas actions *)

(** [addNode(node)]: the argument has type [Omit<CanvasNode, 'id' | 'zIndex'>];
    both fields are written after the spread, so whatever the record holds
    there is overwritten. *)
Definition addNode (e : Env) (node : CanvasNode) (s : Store) : Store :=
  let newNode := with_id_zIndex node (nanoid e 0) (Js.of_nat (length (nodes s))) in
  saveHistory e (set_nodes s (nodes s ++ [newNode])).

Definition updateNode (e : Env) (nid : string) (updates : PartialNode) (s : Store) : Store :=
  saveHistory e
    (set_nodes s
       (map (fun node => if String.eqb (id node) nid then merge node updates else node)
            (nodes s))).

Definition deleteNode (e : Env) (nid : string) (s : Store) : Store :=
  saveHistory e
    (set_nodes_selection s
       (filter (fun node => negb (String.eqb (id node) nid)) (nodes s))
       (filter (fun sel => negb (String.eqb sel nid)) (selectedNodeIds s))).

Definition deleteSelectedNodes (e : Env) (s : Store) : Store :=
  saveHistory e
    (set_nodes_selection s
       (filter (fun node => negb (Js.includes (selectedNodeIds s) (id node))) (nodes s))
       []).

Definition selectNode (nid : string) (multi : bool) (s : Store) : Store :=
  if multi then
    let isSelected := Js.includes (selectedNodeIds s) nid in
    set_selectedNodeIds s
      (if isSelected
       then filter (fun sel => negb (String.eqb sel nid)) (selectedNodeIds s)
       else selectedNodeIds s ++ [nid])
  else set_selectedNodeIds s [nid].

Definition selectNodes (ids : list string) (s : Store) : Store :=
  set_selectedNodeIds s ids.

Definition clearSelection (s : Store) : Store :=
  set_selectedNodeIds s [].

Definition setCanvasMode (m : CanvasMode) (s : Store) : Store :=
  set_canvasMode s m.

(** [state.nodes.filter(node => state.selectedNodeIds.includes(node.id))]:
    the selected nodes, in the order of the node collection. *)
Definition selectedNodes (s : Store) : list CanvasNode :=
  filter (fun node => Js.includes (selectedNodeIds s) (id node)) (nodes s).

(** The elements of an array paired with their indices, as [map] and
    [forEach] hand them to a callback. *)
Fixpoint indexed_from {A : Type} (k : nat) (arr : list A) : list (nat * A) :=
  match arr with
  | [] => []
  | a :: rest => (k, a) :: indexed_from (S k) rest
  end.

Definition indexed {A : Type} (arr : list A) : list (nat * A) := indexed_from 0 arr.

(** [{ ...node, id: nid, x: node.x + 20, y: node.y + 20, zIndex: z }] *)
Definition duplicate_of (node : CanvasNode) (nid : string) (z : Q) : CanvasNode :=
  with_xy (with_id_zIndex node nid z) (x node + 20) (y node + 20).

(** [duplicateSelected()].  [selectedNodes.indexOf(node)] compares object
    references, and [filter] lists each node object once, so it is the
    position of [node] in [selectedNodes]. *)
Definition duplicateSelected (e : Env) (s : Store) : Store :=
  let selected := selectedNodes s in
  let newNodes :=
    map (fun '(k, node) =>
           duplicate_of node (nanoid e k) (Js.of_nat (length (nodes s) + k)))
        (indexed selected) in
  saveHistory e (set_nodes_selection s (nodes s ++ newNodes) (map id newNodes)).

(** *** Arrangement *)

Definition GAP : Q := 20.

(** The body of the three [forEach] loops:
    [nodeIndex = updatedNodes.findIndex(n => n.id === node.id)] and
    [updatedNodes[nodeIndex] = { ...updatedNodes[nodeIndex], x, y }].
    With [nodeIndex = -1] the assignment would create the property ["-1"]
    and leave every element as it is. *)
Definition place (updatedNodes : list CanvasNode) (node : CanvasNode) (nx ny : Q)
  : list CanvasNode :=
  match Js.findIndex (fun n => String.eqb (id n) (id node)) updatedNodes with
  | Some nodeIndex =>
      match nth_error updatedNodes nodeIndex with
      | Some current => Js.assign updatedNodes nodeIndex (with_xy current nx ny)
      | None => updatedNodes
      end
  | None => updatedNodes
  end.

Definition align_row (selected updatedNodes : list CanvasNode) : list CanvasNode :=
  let sorted := Js.sort (fun a b => x a - x b) selected in
  match sorted with
  | [] => updatedNodes
  | first :: _ =>
      let currentX := x first in
      let avgY := fold_left (fun sum n => sum + y n) sorted 0 / Js.of_nat (length sorted) in
      fst (fold_left
             (fun '(updatedNodes, currentX) node =>
                (place updatedNodes node currentX avgY, currentX + (width node + GAP)))
             sorted (updatedNodes, currentX))
  end.

Definition align_column (selected updatedNodes : list CanvasNode) : list CanvasNode :=
  let sorted := Js.sort (fun a b => y a - y b) selected in
  match sorted with
  | [] => updatedNodes
  | first :: _ =>
      let avgX := fold_left (fun sum n => sum + x n) sorted 0 / Js.of_nat (length sorted) in
      let currentY := y first in
      fst (fold_left
             (fun '(updatedNodes, currentY) node =>
                (place updatedNodes node avgX currentY, currentY + (height node + GAP)))
             sorted (updatedNodes, currentY))
  end.

Definition align_grid (selected updatedNodes : list CanvasNode) : list CanvasNode :=
  let numCols := Js.ceil_sqrt (length selected) in
  let maxWidth := Js.Math_max (map width selected) in
  let maxHeight := Js.Math_max (map height selected) in
  match selected with
  | [] => updatedNodes
  | first :: _ =>
      let startX := x first in
      let startY := y first in
      fold_left
        (fun updatedNodes '(index, node) =>
           let col := (index mod numCols)%nat in
           let row := (index / numCols)%nat in
           place updatedNodes node
             (startX + Js.of_nat col * (maxWidth + GAP) + (maxWidth - width node) / 2)
             (startY + Js.of_nat row * (maxHeight + GAP) + (maxHeight - height node) / 2))
        (indexed selected) updatedNodes
  end.

Definition alignNodes (e : Env) (alignment : Alignment) (s : Store) : Store :=
  let selected := selectedNodes s in
  if (length selected <? 2)%nat then s
  else
    let updatedNodes :=
      match alignment with
      | Row => align_row selected (nodes s)
      | Column => align_column selected (nodes s)
      | Grid => align_grid selected (nodes s)
      end in
    saveHistory e (set_nodes s updatedNodes).

(** *** Sequences of actions *)

Inductive Action : Type :=
| AddNode (node : CanvasNode)
| UpdateNode (nid : string) (updates : PartialNode)
| DeleteNode (nid : string)
| DeleteSelectedNodes
| SelectNode (nid : string) (multi : bool)
| SelectNodes (ids : list string)
| ClearSelection
| DuplicateSelected
| AlignNodes (alignment : Alignment)
| SetCanvasMode (m : CanvasMode)
| Undo
| Redo.

Definition step (e : Env) (a : Action) (s : Store) : result Store :=
  match a with
  | AddNode node => Ok (addNode e node s)
  | UpdateNode nid updates => Ok (updateNode e nid updates s)
  | DeleteNode nid => Ok (deleteNode e nid s)
  | DeleteSelectedNodes => Ok (deleteSelectedNodes e s)
  | SelectNode nid multi => Ok (selectNode nid multi s)
  | SelectNodes ids => Ok (selectNodes ids s)
  | ClearSelection => Ok (clearSelection s)
  | DuplicateSelected => Ok (duplicateSelected e s)
  | AlignNodes alignment => Ok (alignNodes e alignment s)
  | SetCanvasMode m => Ok (setCanvasMode m s)
  | Undo => undo s
  | Redo => redo s
  end.

Fixpoint run (actions : list (Env * Action)) (s : Store) : result Store :=
  match actions with
  | [] => Ok s
  | (e, a) :: rest => bind (step e a s) (run rest)
  end.

(** The actions that end in a call of [saveHistory]: every node mutation,
    and [alignNodes] when at least two selected nodes exist. *)
Definition saves_history (a : Action) (s : Store) : bool :=
  match a with
  | AddNode _ | UpdateNode _ _ | DeleteNode _ | DeleteSelectedNodes
  | DuplicateSelected => true
  | AlignNodes _ => negb (length (selectedNodes s) <? 2)%nat
  | _ => false
  end.

(** ** Selection handlers of the canvas component ([src/components/Canvas.tsx]) *)

(** A fabric selection event.  Each selected or deselected object is
    represented by the id held in its [data] property ([None] when the
    object carries none). *)
Record SelectionEvent : Type := mkSelectionEvent {
  selected : list (option string);
  deselected : list (option string)
}.

(** [objs.map(obj => obj.data?.id).filter(Boolean)]: [undefined] and the
    empty string are falsy. *)
Definition event_ids (objs : list (option string)) : list string :=
  flat_map (fun d => match d with
                     | Some i => if String.eqb i "" then [] else [i]
                     | None => []
                     end) objs.

(** [canvas.discardActiveObject()] fires ['selection:cleared'], whose
    handlers call [clearSelection()]. *)
Definition discardActiveObject (s : Store) : Store := clearSelection s.

(** The ['selection:created'] handler registered by the mount effect.
    [canvasMode] is the value the handler's closure holds.  The writes to
    the component's local state (mini chat, dragged image) are left out. *)
Definition on_selection_created (canvasMode : CanvasMode) (ev : SelectionEvent) (s : Store)
  : Store :=
  match event_ids (selected ev) with
  | [] => s
  | (first :: _) as ids =>
      match canvasMode with
      | Chat =>
          if (length ids =? 1)%nat then selectNode first false s
          else clearSelection (discardActiveObject s)
      | Dragdrop =>
          if (length ids =? 1)%nat then selectNode first false s
          else clearSelection (discardActiveObject s)
      | Select =>
          if (1 <? length ids)%nat then selectNodes ids s
          else selectNode first false s
      end
  end.

(** The ['selection:updated'] handler registered by the mount effect: only
    [chat] is told apart from the default branch. *)
Definition on_selection_updated (canvasMode : CanvasMode) (ev : SelectionEvent) (s : Store)
  : Store :=
  match event_ids (selected ev) with
  | [] => s
  | (first :: _) as ids =>
      match canvasMode with
      | Chat =>
          if (length ids =? 1)%nat then selectNode first false s
          else clearSelection (discardActiveObject s)
      | _ =>
          if (1 <? length ids)%nat then selectNodes ids s
          else selectNode first false s
      end
  end.

(** [handleSelection], registered for both events by the drag-and-drop
    effect while the store is in [dragdrop] mode.  [rendered] is the
    [selectedNodeIds] value of the render that registered it. *)
Definition handleSelection (rendered : list string) (ev : SelectionEvent) (s : Store)
  : Store :=
  match selected ev with
  | _ :: _ => selectNodes (event_ids (selected ev)) s
  | [] =>
      match deselected ev with
      | _ :: _ =>
          selectNodes
            (filter (fun i => negb (existsb (fun d => match d with
                                                      | Some j => String.eqb j i
                                                      | None => false
                                                      end) (deselected ev)))
                    rendered) s
      | [] => s
      end
  end.

(** Firing an event runs the listeners in the order of their registration:
    the mount effect's handler (which sees the mode [mounted] captured when
    it was registered), then [handleSelection] when the drag-and-drop effect
    is active. *)
Definition fire_selection_created (mounted : CanvasMode) (ev : SelectionEvent) (s : Store)
  : Store :=
  let s1 := on_selection_created mounted ev s in
  match canvasMode s with
  | Dragdrop => handleSelection (selectedNodeIds s) ev s1
  | _ => s1
  end.

Definition fire_selection_updated (mounted : CanvasMode) (ev : SelectionEvent) (s : Store)
  : Store :=
  let s1 := on_selection_updated mounted ev s in
  match canvasMode s with
  | Dragdrop => handleSelection (selectedNodeIds s) ev s1
  | _ => s1
  end.

(** ** Scene reconciliation ([src/components/Canvas.tsx], the nodes effect) *)

(** The properties of a fabric object that the effect reads or writes. *)
Record FabricObject : Type := mkFabricObject {
  left : Q;
  top : Q;
  fo_width : Q;
  fo_height : Q;
  scaleX : Q;
  scaleY : Q;
  angle : Q;
  fo_opacity : Q;
  src : option string;
  selectable : bool;
  data_id : option string
}.

(** The drawing surface.  Fabric objects are shared between the canvas and
    [objectMapRef], so each lives once, under a reference, in
    [canvasObjects]; [objectMap] is the JavaScript [Map] from node id to
    reference, in insertion order; [loading] holds, for each image load in
    flight, the node captured by its completion callback. *)
Record Surface : Type := mkSurface {
  canvasObjects : list (nat * FabricObject);
  objectMap : list (string * nat);
  nextRef : nat;
  loading : list CanvasNode
}.

(** What a pass does to drawables. *)
Inductive Mutation : Type :=
| Removed (nodeId : string)
| Transformed (nodeId : string)
| SourceReloaded (nodeId : string)
| LoadStarted (nodeId : string)
| Created (nodeId : string).

Definition map_get (m : list (string * nat)) (k : string) : option nat :=
  match find (fun kv => String.eqb (fst kv) k) m with
  | Some kv => Some (snd kv)
  | None => None
  end.

Definition map_delete (m : list (string * nat)) (k : string) : list (string * nat) :=
  filter (fun kv => negb (String.eqb (fst kv) k)) m.

(** [Map.prototype.set]: an existing key keeps its place. *)
Fixpoint map_set (m : list (string * nat)) (k : string) (v : nat) : list (string * nat) :=
  match m with
  | [] => [(k, v)]
  | kv :: rest => if String.eqb (fst kv) k then (k, v) :: rest else kv :: map_set rest k v
  end.

Definition deref (objs : list (nat * FabricObject)) (r : nat) : option FabricObject :=
  match find (fun ro => Nat.eqb (fst ro) r) objs with
  | Some ro => Some (snd ro)
  | None => None
  end.

Definition store_obj (objs : list (nat * FabricObject)) (r : nat) (o : FabricObject)
  : list (nat * FabricObject) :=
  map (fun ro => if Nat.eqb (fst ro) r then (r, o) else ro) objs.

(** [!node.url || node.url === 'undefined' || node.url === 'null'] *)
Definition invalid_url (u : option string) : bool :=
  match u with
  | None => true
  | Some v => String.eqb v "" || String.eqb v "undefined" || String.eqb v "null"
  end.

(** [existingObj.get('src') || ''] *)
Definition current_src (o : FabricObject) : string :=
  match src o with
  | Some v => v
  | None => ""
  end.

(** [currentSrc !== node.url] *)
Definition url_changed (o : FabricObject) (node : CanvasNode) : bool :=
  match url node with
  | Some u => negb (String.eqb (current_src o) u)
  | None => true
  end.

Definition needs_update (o : FabricObject) (node : CanvasNode) : bool :=
  let currentLeft := Js.or_default (left o) 0 in
  let currentTop := Js.or_default (top o) 0 in
  let currentWidth := Js.or_default (fo_width o) 1 * Js.or_default (scaleX o) 1 in
  let currentHeight := Js.or_default (fo_height o) 1 * Js.or_default (scaleY o) 1 in
  let positionChanged :=
    Js.gt (Qabs (currentLeft - x node)) (1 # 10)
    || Js.gt (Qabs (currentTop - y node)) (1 # 10) in
  let sizeChanged :=
    Js.gt (Qabs (currentWidth - width node)) (1 # 10)
    || Js.gt (Qabs (currentHeight - height node)) (1 # 10) in
  let rotationChanged :=
    Js.gt (Qabs (Js.or_default (angle o) 0 - rotation node)) (1 # 10) in
  let opacityChanged :=
    Js.gt (Qabs (Js.or_default (fo_opacity o) 1 - opacity node)) (1 # 100) in
  positionChanged || sizeChanged || rotationChanged || opacityChanged || url_changed o node.

Definition is_image (node : CanvasNode) : bool :=
  match type node with
  | Image => true
  | _ => false
  end.

(** [existingObj.set(updates)] *)
Definition apply_updates (o : FabricObject) (node : CanvasNode) : FabricObject :=
  {| left := x node;
     top := y node;
     fo_width := fo_width o;
     fo_height := fo_height o;
     scaleX := width node / Js.or_default (fo_width o) 1;
     scaleY := height node / Js.or_default (fo_height o) 1;
     angle := rotation node;
     fo_opacity := opacity node;
     src := if url_changed o node && is_image node then url node else src o;
     selectable := negb (locked node);
     data_id := data_id o |}.

(** [objectMap.get(node.id)], with the reference of the object found. *)
Definition existing_object (sf : Surface) (nodeId : string) : option (nat * FabricObject) :=
  match map_get (objectMap sf) nodeId with
  | Some r =>
      match deref (canvasObjects sf) r with
      | Some o => Some (r, o)
      | None => None
      end
  | None => None
  end.

(** The body of [nodes.forEach] for one node. *)
Definition sync_node (node : CanvasNode) (st : Surface * list Mutation)
  : Surface * list Mutation :=
  let '(sf, log) := st in
  match existing_object sf (id node) with
  | Some (r, existingObj) =>
      if needs_update existingObj node then
        let sf' := {| canvasObjects := store_obj (canvasObjects sf) r (apply_updates existingObj node);
                      objectMap := objectMap sf;
                      nextRef := nextRef sf;
                      loading := loading sf |} in
        if url_changed existingObj node && is_image node && negb (invalid_url (url node))
        then (sf', log ++ [Transformed (id node); SourceReloaded (id node)])
        else (sf', log ++ [Transformed (id node)])
      else (sf, log)
  | None =>
      if is_image node && negb (invalid_url (url node)) then
        ({| canvasObjects := canvasObjects sf;
            objectMap := objectMap sf;
            nextRef := nextRef sf;
            loading := loading sf ++ [node] |},
         log ++ [LoadStarted (id node)])
      else (sf, log)
  end.

(** The first loop of the effect: drawables of nodes that are gone are taken
    off the canvas and out of the map.  [remove_step] is the loop body for
    one entry of [Array.from(objectMap.entries())]. *)
Definition remove_step (existingNodeIds : list string) (st : Surface * list Mutation)
  (entry : string * nat) : Surface * list Mutation :=
  let '(sf, log) := st in
  let '(nodeId, r) := entry in
  if Js.includes existingNodeIds nodeId then (sf, log)
  else
    ({| canvasObjects := filter (fun ro => negb (Nat.eqb (fst ro) r)) (canvasObjects sf);
        objectMap := map_delete (objectMap sf) nodeId;
        nextRef := nextRef sf;
        loading := loading sf |},
     log ++ [Removed nodeId]).

Definition remove_stale (nodes : list CanvasNode) (st : Surface * list Mutation)
  : Surface * list Mutation :=
  let existingNodeIds := map id nodes in
  fold_left (remove_step existingNodeIds) (objectMap (fst st)) st.

(** One run of the effect for the node collection [nodes]: the surface it
    leaves and the drawable mutations it performed. *)
Definition sync (nodes : list CanvasNode) (sf : Surface) : Surface * list Mutation :=
  fold_left (fun st node => sync_node node st) nodes (remove_stale nodes (sf, [])).

Fixpoint remove_nth {A : Type} (k : nat) (l : list A) : list A :=
  match l, k with
  | [], _ => []
  | _ :: rest, O => rest
  | a :: rest, S j => a :: remove_nth j rest
  end.

(** The [then] callback of [loadImageWithCORS] for the [k]-th load in
    flight, resolved with the image [img]. *)
Definition complete_load (k : nat) (img : FabricObject) (sf : Surface)
  : Surface * list Mutation :=
  match nth_error (loading sf) k with
  | None => (sf, [])
  | Some node =>
      let rest := remove_nth k (loading sf) in
      if Qeq_bool (fo_width img) 0 || Qeq_bool (fo_height img) 0 then
        ({| canvasObjects := canvasObjects sf; objectMap := objectMap sf;
            nextRef := nextRef sf; loading := rest |}, [])
      else
        let placed :=
          {| left := x node;
             top := y node;
             fo_width := fo_width img;
             fo_height := fo_height img;
             scaleX := width node / fo_width img;
             scaleY := height node / fo_height img;
             angle := rotation node;
             fo_opacity := opacity node;
             src := src img;
             selectable := negb (locked node);
             data_id := Some (id node) |} in
        ({| canvasObjects := canvasObjects sf ++ [(nextRef sf, placed)];
            objectMap := map_set (objectMap sf) (id node) (nextRef sf);
            nextRef := S (nextRef sf);
            loading := rest |},
         [Created (id node)])
  end.

Definition empty_surface : Surface :=
  {| canvasObjects := []; objectMap := []; nextRef := 0%nat; loading := [] |}.

(** ** Predicates used in the statements *)

(** Every selected id references a node of the collection. *)
Definition selection_valid (s : Store) : Prop :=
  forall i, In i (selectedNodeIds s) -> In i (map id (nodes s)).

(** The history bound and the index invariant. *)
Definition history_ok (s : Store) : Prop :=
  (length (history s) <= 50)%nat
  /\ (history s = [] -> historyIndex s = (-1)%Z)
  /\ (history s <> [] ->
      (0 <= historyIndex s < Z.of_nat (length (history s)))%Z).

(** The entry under the history index holds the current node collection. *)
Definition history_synced (s : Store) : Prop :=
  forall entry,
    Js.index (history s) (historyIndex s) = Some entry -> hs_nodes entry = nodes s.

(** The history that one capture of the node collection [ns] leaves: the
    redo tail is cut, one entry is appended, and the oldest entry is evicted
    when that makes more than 50. *)
Definition captured (e : Env) (s : Store) (ns : list CanvasNode) : list HistoryState :=
  let kept := Js.slice0 (history s) (historyIndex s + 1) in
  let appended := kept ++ [ {| hs_nodes := ns; timestamp := now e |} ] in
  if (50 <? length appended)%nat then tl appended else appended.

Definition add_or_delete (a : Action) : bool :=
  match a with
  | AddNode _ | DeleteNode _ | DeleteSelectedNodes => true
  | _ => false
  end.

(** The answers of [nanoid()] to its first [n] calls are pairwise distinct
    and differ from every id of the node collection. *)
Definition nanoid_fresh (e : Env) (s : Store) (n : nat) : Prop :=
  NoDup (map (nanoid e) (seq 0 n))
  /\ forall k, (k < n)%nat -> ~ In (nanoid e k) (map id (nodes s)).

(** *** Copies, as the specification words them *)


(** *** Layouts, as the specification words them *)










(** *** Settled surfaces *)







(** *** Placement plans, used to reason about the three loops *)






(** *** Fresh ids along a run *)

(** A sequence of [addNode] and [duplicateSelected] calls in which every
    call of [nanoid()] answers with an id that is new to the node
    collection of that moment (and, within one duplication, new each
    time). *)
Fixpoint fresh_run (actions : list (Env * Action)) (s : Store) : Prop :=
  match actions with
  | [] => True
  | (e, AddNode node) :: rest =>
      nanoid_fresh e s 1 /\ fresh_run rest (addNode e node s)
  | (e, DuplicateSelected) :: rest =>
      nanoid_fresh e s (length (selectedNodes s))
      /\ fresh_run rest (duplicateSelected e s)
  | _ => False
  end.

(** ** Sample values for the worked examples *)

(** An unlocked, opaque image node without asset or content reference. *)
Definition sample_node (nid : string) (px py w h : Q) : CanvasNode :=
  {| id := nid; type := Image; assetId := None; url := None;
     x := px; y := py; width := w; height := h;
     rotation := 0; opacity := 1; locked := false; zIndex := 0;
     blendMode := None; shadow := None; radius := None;
     text := None; fontFamily := None; fontSize := None;
     fontWeight := None; fill := None; textAlign := None |}.

(** An environment whose [nanoid] answers ["new0"], ["new1"], ... *)
Definition sample_env : Env :=
  {| now := 0%Z;
     nanoid := fun k => String.append "new" (String (Ascii.ascii_of_nat (48 + k)) "") |}.

(** A store holding the nodes [ns], with the ids [sel] selected, right
    after a history capture. *)
Definition sample_store (ns : list CanvasNode) (sel : list string) : Store :=
  {| nodes := ns; selectedNodeIds := sel; canvasMode := Select;
     history := [ {| hs_nodes := ns; timestamp := 0%Z |} ]; historyIndex := 0%Z |}.

(** An image node with a content reference, and the image that the load
    of [u] resolves with: natural size 100 x 100, and no [src] property
    ([FabricImage.fromURL] keeps the address in the element; the property
    is first written by an update of the effect). *)
Definition sample_image_node (nid u : string) (alpha : Q) : CanvasNode :=
  {| id := nid; type := Image; assetId := Some "asset"; url := Some u;
     x := 0; y := 0; width := 100; height := 100;
     rotation := 0; opacity := alpha; locked := false; zIndex := 0;
     blendMode := None; shadow := None; radius := None;
     text := None; fontFamily := None; fontSize := None;
     fontWeight := None; fill := None; textAlign := None |}.

Definition sample_loaded_image (u : string) : FabricObject :=
  {| left := 0; top := 0; fo_width := 100; fo_height := 100;
     scaleX := 1; scaleY := 1; angle := 0; fo_opacity := 1;
     src := None; selectable := true; data_id := None |}.


(** Fifty [addNode] calls, the k-th at time k and with the one-character id
    of code 40 + k: the history is full afterwards. *)
Definition fifty_adds : list (Env * Action) :=
  map (fun k => ({| now := Z.of_nat k;
                    nanoid := fun _ => String (Ascii.ascii_of_nat (40 + k)) "" |},
                 AddNode (sample_node "" 0 0 10 10)))
      (seq 0 50).

(** ** Further parts of the store and of the canvas component *)

(** *** Repeated undo and redo, well-formed stores *)

(** [k] calls of a history action in a row; a throw ends the run. *)
Fixpoint repeat_action (f : Store -> result Store) (k : nat) (s : Store) : result Store :=
  match k with
  | O => Ok s
  | S j => bind (f s) (repeat_action f j)
  end.

(** The data-model invariants of a store: node ids are unique, every
    selected id references a node, the history is within its bounds, and
    every snapshot in the history has unique ids. *)
Definition well_formed (s : Store) : Prop :=
  NoDup (map id (nodes s))
  /\ selection_valid s
  /\ history_ok s
  /\ Forall (fun entry => NoDup (map id (hs_nodes entry))) (history s).

(** What an action needs from its caller and from [nanoid()] to keep the
    store well formed: fresh ids, updates that leave the id alone, and
    selections of existing nodes. *)
Definition good_action (e : Env) (a : Action) (s : Store) : Prop :=
  match a with
  | AddNode _ => nanoid_fresh e s 1
  | DuplicateSelected => nanoid_fresh e s (length (selectedNodes s))
  | UpdateNode _ updates => p_id updates = None
  | SelectNode nid _ => In nid (map id (nodes s))
  | SelectNodes ids => forall i, In i ids -> In i (map id (nodes s))
  | _ => True
  end.

Fixpoint good_run (actions : list (Env * Action)) (s : Store) : Prop :=
  match actions with
  | [] => True
  | (e, a) :: rest =>
      good_action e a s /\ forall s1, step e a s = Ok s1 -> good_run rest s1
  end.

(** *** Generated asset ids ([addGeneratedAssetId]) *)

(** The new value of [aiGeneratedAssetIds]; the action reads and writes
    this field only. *)
Definition addGeneratedAssetId (aid : string) (aiGeneratedAssetIds : list string)
  : list string :=
  if Js.includes aiGeneratedAssetIds aid then aiGeneratedAssetIds
  else aid :: aiGeneratedAssetIds.

(** *** Zoom commands of the context menu ([Canvas.tsx]) *)

(** [Math.min(a, b)] and [Math.max(a, b)] on two numbers. *)
Definition Math_min2 (a b : Q) : Q := if Js.gt a b then b else a.
Definition Math_max2 (a b : Q) : Q := if Js.gt b a then b else a.

(** The value handed to [setZoom] by each handler, from the current
    [zoom]: [Math.min(zoom * 1.2, 8)], [Math.max(zoom / 1.2, 0.1)], [1]. *)
Definition handleZoomIn (zoom : Q) : Q := Math_min2 (zoom * (12 # 10)) 8.
Definition handleZoomOut (zoom : Q) : Q := Math_max2 (zoom / (12 # 10)) (1 # 10).
Definition handleZoomReset (zoom : Q) : Q := 1.

(** The ['mouse:wheel'] handler: [scaled] is the value of
    [canvas.getZoom() * 0.999 ** delta]; the two [if] statements clamp it,
    and the result goes to [setZoom]. *)
Definition wheel_zoom (scaled : Q) : Q :=
  let zoom := scaled in
  let zoom := if Js.gt zoom 8 then 8 else zoom in
  let zoom := if Js.gt (1 # 10) zoom then 1 # 10 else zoom in
  zoom.

Inductive ZoomCommand : Type :=
| ZoomIn
| ZoomOut
| ZoomReset
| Wheel (scaled : Q).

(** The [zoom] of the store after one command. *)
Definition zoom_step (zoom : Q) (c : ZoomCommand) : Q :=
  match c with
  | ZoomIn => handleZoomIn zoom
  | ZoomOut => handleZoomOut zoom
  | ZoomReset => handleZoomReset zoom
  | Wheel scaled => wheel_zoom scaled
  end.

(** The store starts with [zoom: 1]. *)
Definition initial_zoom : Q := 1.

(** *** Writing a modified drawable back to the store (['object:modified']) *)

Definition no_updates : PartialNode :=
  mkPartial None None None None None None None None None None None None None None
            None None None None None None None.

(** The updates that the handler builds from the drawable. *)
Definition modified_updates (obj : FabricObject) : PartialNode :=
  {| p_id := None; p_type := None; p_assetId := None; p_url := None;
     p_x := Some (Js.or_default (left obj) 0);
     p_y := Some (Js.or_default (top obj) 0);
     p_width := Some (Js.or_default (fo_width obj) 0 * Js.or_default (scaleX obj) 1);
     p_height := Some (Js.or_default (fo_height obj) 0 * Js.or_default (scaleY obj) 1);
     p_rotation := Some (Js.or_default (angle obj) 0);
     p_opacity := None; p_locked := None; p_zIndex := None;
     p_blendMode := None; p_shadow := None; p_radius := None;
     p_text := None; p_fontFamily := None; p_fontSize := None;
     p_fontWeight := None; p_fill := None; p_textAlign := None |}.

(** The handler: nothing happens without a target or without a (truthy)
    id in its [data]. *)
Definition on_object_modified (e : Env) (target : option FabricObject) (s : Store)
  : Store :=
  match target with
  | None => s
  | Some obj =>
      match data_id obj with
      | None => s
      | Some nodeId =>
          if String.eqb nodeId "" then s
          else updateNode e nodeId (modified_updates obj) s
      end
  end.

(** *** The trigger of the automatic generation (drag-and-drop mode) *)

(** [node.assetId] as a condition: [undefined] and the empty string are
    falsy. *)
Definition has_asset (node : CanvasNode) : bool :=
  match assetId node with
  | Some v => negb (String.eqb v "")
  | None => false
  end.

(** The pair of images handed to [handleDragDropGeneration] by the effect,
    when it fires. *)
Definition generation_pair (s : Store) : option (CanvasNode * CanvasNode) :=
  match canvasMode s with
  | Dragdrop =>
      if (length (selectedNodeIds s) =? 2)%nat then
        let selectedImageNodes :=
          filter (fun node => Js.includes (selectedNodeIds s) (id node)
                              && is_image node && has_asset node)
                 (nodes s) in
        match selectedImageNodes with
        | [image1; image2] => Some (image1, image2)
        | _ => None
        end
      else None
  | _ => None
  end.

(** ** The video store ([useVideoStore]) and its canvas ([VideoCanvas.tsx]) *)

Module Video.

Inductive MediaType : Type := VideoMedia | ImageMedia.

Record VideoNode : Type := mkVideoNode {
  id : string;
  type : MediaType;
  x : Q;
  y : Q;
  width : Q;
  height : Q;
  videoUrl : option string;
  imageUrl : option string;
  duration : option Q;
  startTime : option Q;
  endTime : option Q;
  volume : option Q;
  muted : option bool;
  zIndex : Q;
  selected : bool
}.

(** [Partial<VideoNode>]: [None] is an absent key. *)
Record PartialVideoNode : Type := mkPartialVideoNode {
  p_id : option string;
  p_type : option MediaType;
  p_x : option Q;
  p_y : option Q;
  p_width : option Q;
  p_height : option Q;
  p_videoUrl : option (option string);
  p_imageUrl : option (option string);
  p_duration : option (option Q);
  p_startTime : option (option Q);
  p_endTime : option (option Q);
  p_volume : option (option Q);
  p_muted : option (option bool);
  p_zIndex : option Q;
  p_selected : option bool
}.

(** [{ ...node, ...updates }] *)
Definition merge (node : VideoNode) (updates : PartialVideoNode) : VideoNode :=
  {| id := over (id node) (p_id updates);
     type := over (type node) (p_type updates);
     x := over (x node) (p_x updates);
     y := over (y node) (p_y updates);
     width := over (width node) (p_width updates);
     height := over (height node) (p_height updates);
     videoUrl := over (videoUrl node) (p_videoUrl updates);
     imageUrl := over (imageUrl node) (p_imageUrl updates);
     duration := over (duration node) (p_duration updates);
     startTime := over (startTime node) (p_startTime updates);
     endTime := over (endTime node) (p_endTime updates);
     volume := over (volume node) (p_volume updates);
     muted := over (muted node) (p_muted updates);
     zIndex := over (zIndex node) (p_zIndex updates);
     selected := over (selected node) (p_selected updates) |}.

(** The part of the store that the node and selection actions read and
    write ([currentProject], [isLoading] and [error] belong to the project
    and generation actions). *)
Record Store : Type := mkStore {
  nodes : list VideoNode;
  selectedNodeIds : list string
}.

(** [addNode(nodeData)]; [newId] is the id built from [Date.now()] and
    [Math.random()].  The argument has type [Omit<VideoNode, 'id'>]; the
    defaults of [volume] and [muted] stand before the spread, so a value
    of [nodeData] wins, and [selected: false] stands after it. *)
Definition addNode (newId : string) (nodeData : VideoNode) (s : Store) : Store :=
  let newNode :=
    {| id := newId;
       type := type nodeData;
       x := x nodeData; y := y nodeData;
       width := width nodeData; height := height nodeData;
       videoUrl := videoUrl nodeData; imageUrl := imageUrl nodeData;
       duration := duration nodeData;
       startTime := startTime nodeData; endTime := endTime nodeData;
       volume := match volume nodeData with
                 | Some v => Some v
                 | None => match type nodeData with
                           | VideoMedia => Some 1
                           | ImageMedia => None
                           end
                 end;
       muted := match muted nodeData with
                | Some v => Some v
                | None => match type nodeData with
                          | VideoMedia => Some false
                          | ImageMedia => None
                          end
                end;
       zIndex := zIndex nodeData;
       selected := false |} in
  {| nodes := nodes s ++ [newNode]; selectedNodeIds := selectedNodeIds s |}.

Definition updateNode (nid : string) (updates : PartialVideoNode) (s : Store) : Store :=
  {| nodes := map (fun node => if String.eqb (id node) nid then merge node updates else node)
                  (nodes s);
     selectedNodeIds := selectedNodeIds s |}.

Definition deleteNode (nid : string) (s : Store) : Store :=
  {| nodes := filter (fun node => negb (String.eqb (id node) nid)) (nodes s);
     selectedNodeIds :=
       filter (fun nodeId => negb (String.eqb nodeId nid)) (selectedNodeIds s) |}.

Definition selectNode (nid : string) (multi : bool) (s : Store) : Store :=
  if multi then
    let isSelected := Js.includes (selectedNodeIds s) nid in
    {| nodes := nodes s;
       selectedNodeIds :=
         if isSelected
         then filter (fun nodeId => negb (String.eqb nodeId nid)) (selectedNodeIds s)
         else selectedNodeIds s ++ [nid] |}
  else {| nodes := nodes s; selectedNodeIds := [nid] |}.

Definition selectNodes (ids : list string) (s : Store) : Store :=
  {| nodes := nodes s; selectedNodeIds := ids |}.

Definition clearSelection (s : Store) : Store :=
  {| nodes := nodes s; selectedNodeIds := [] |}.

(** [{ x, y }] and [{ width, height }] *)
Definition position_updates (nx ny : Q) : PartialVideoNode :=
  mkPartialVideoNode None None (Some nx) (Some ny) None None None None None None None None
                     None None None.

Definition size_updates (w h : Q) : PartialVideoNode :=
  mkPartialVideoNode None None None None (Some w) (Some h) None None None None None None
                     None None None.

Definition moveNode (nid : string) (nx ny : Q) (s : Store) : Store :=
  updateNode nid (position_updates nx ny) s.

Definition resizeNode (nid : string) (w h : Q) (s : Store) : Store :=
  updateNode nid (size_updates w h) s.

(** *** Handlers of [VideoCanvas.tsx] *)

Definition Math_abs (a : Q) : Q := Qabs a.

Record Box : Type := mkBox { bx : Q; by_ : Q; bw : Q; bh : Q }.

(** [newBox] of [handleCanvasMouseMove], from the corner where the drag
    started and the pointer position. *)
Definition selection_box (dragStart current : Q * Q) : Box :=
  {| bx := Math_min2 (fst dragStart) (fst current);
     by_ := Math_min2 (snd dragStart) (snd current);
     bw := Math_abs (fst current - fst dragStart);
     bh := Math_abs (snd current - snd dragStart) |}.

(** The filter of [nodesInSelection]; [a < b] is [Js.gt b a]. *)
Definition in_box (newBox : Box) (node : VideoNode) : bool :=
  let nodeRight := x node + width node in
  let nodeBottom := y node + height node in
  let boxRight := bx newBox + bw newBox in
  let boxBottom := by_ newBox + bh newBox in
  Js.gt boxRight (x node)
  && Js.gt nodeRight (bx newBox)
  && Js.gt boxBottom (y node)
  && Js.gt nodeBottom (by_ newBox).

(** [handleCanvasMouseMove] while a selection box is being drawn. *)
Definition handleCanvasMouseMove (dragStart current : Q * Q) (s : Store) : Store :=
  let newBox := selection_box dragStart current in
  let nodesInSelection := filter (in_box newBox) (nodes s) in
  if (0 <? length nodesInSelection)%nat
  then selectNodes (map id nodesInSelection) s
  else s.

(** [handleDeleteSelected]: [selectedNodeIds] is the array of the render
    that built the handler; each [deleteNode] works on the store of the
    moment. *)
Definition handleDeleteSelected (s : Store) : Store :=
  if (length (selectedNodeIds s) =? 0)%nat then s
  else fold_left (fun st nid => deleteNode nid st) (selectedNodeIds s) s.

(** [handleMouseDown] on a node, with the state of the modifier keys. *)
Definition handleMouseDown (nodeId : string) (modifier : bool) (s : Store) : Store :=
  if Js.includes (selectedNodeIds s) nodeId then s
  else selectNode nodeId modifier s.

(** The [mousemove] handler of the drag effect for the grabbed node
    [dragNode] and a pointer movement of ([deltaX], [deltaY]). *)
Definition handleMouseMove (dragNode : string) (deltaX deltaY : Q) (s : Store) : Store :=
  match find (fun n => String.eqb (id n) dragNode) (nodes s) with
  | Some node => moveNode dragNode (x node + deltaX) (y node + deltaY) s
  | None => s
  end.

(** [handleNodeClick] *)
Definition handleNodeClick (nodeId : string) (modifier : bool) (s : Store) : Store :=
  selectNode nodeId modifier s.

(** [handleCanvasMouseDown] on the background, when no drag is going on. *)
Definition handleCanvasMouseDown (s : Store) : Store := clearSelection s.

(** What the user does on the video canvas. *)
Inductive Event : Type :=
| AssetDropped (newId : string) (nodeData : VideoNode)
| CanvasMouseDown
| CanvasMouseMove (dragStart current : Q * Q)
| NodeClick (nodeId : string) (modifier : bool)
| NodeMouseDown (nodeId : string) (modifier : bool)
| NodeDragged (dragNode : string) (deltaX deltaY : Q)
| DeleteSelected.

Definition handle (s : Store) (ev : Event) : Store :=
  match ev with
  | AssetDropped newId nodeData => addNode newId nodeData s
  | CanvasMouseDown => handleCanvasMouseDown s
  | CanvasMouseMove dragStart current => handleCanvasMouseMove dragStart current s
  | NodeClick nodeId modifier => handleNodeClick nodeId modifier s
  | NodeMouseDown nodeId modifier => handleMouseDown nodeId modifier s
  | NodeDragged dragNode deltaX deltaY => handleMouseMove dragNode deltaX deltaY s
  | DeleteSelected => handleDeleteSelected s
  end.

(** Every selected id references a node. *)
Definition selection_valid (s : Store) : Prop :=
  forall i, In i (selectedNodeIds s) -> In i (map id (nodes s)).

(** Clicks and presses land on nodes that are rendered, that is, on nodes
    of the store of the moment. *)
Fixpoint on_rendered_nodes (events : list Event) (s : Store) : Prop :=
  match events with
  | [] => True
  | ev :: rest =>
      match ev with
      | NodeClick nodeId _ | NodeMouseDown nodeId _ => In nodeId (map id (nodes s))
      | _ => True
      end
      /\ on_rendered_nodes rest (handle s ev)
  end.

End Video.

(** ** The context menu ([Canvas.tsx]) *)

(** The [disabled] attributes of the history, duplicate/delete and
    arrangement entries. *)
Definition undo_disabled (s : Store) : bool := (historyIndex s <=? 0)%Z.

Definition redo_disabled (s : Store) : bool :=
  (Z.of_nat (length (history s)) - 1 <=? historyIndex s)%Z.

Definition duplicate_disabled (s : Store) : bool :=
  (length (selectedNodeIds s) =? 0)%nat.

Definition align_disabled (s : Store) : bool :=
  (length (selectedNodeIds s) <? 2)%nat.

(** ** Project loads ([loadProject], [createProject]) *)

(** Both actions, when the server answers with a project, write the nodes
    of the project (and the view settings, which this model does not hold)
    and touch nothing else: the selection, the history and the history
    index stay as they are.  [response] is the node collection of the
    answer, [None] a failed request, which leaves the modelled fields
    alone. *)
Definition loadProject (response : option (list CanvasNode)) (s : Store) : Store :=
  match response with
  | Some projectNodes => set_nodes s projectNodes
  | None => s
  end.

Definition createProject (response : option (list CanvasNode)) (s : Store) : Store :=
  match response with
  | Some projectNodes => set_nodes s projectNodes
  | None => s
  end.

(** The canvas actions together with the project loads. *)
Inductive Operation : Type :=
| Act (e : Env) (a : Action)
| LoadProject (response : option (list CanvasNode))
| CreateProject (response : option (list CanvasNode)).

Definition perform (op : Operation) (s : Store) : result Store :=
  match op with
  | Act e a => step e a s
  | LoadProject response => Ok (loadProject response s)
  | CreateProject response => Ok (createProject response s)
  end.

Fixpoint run_operations (ops : list Operation) (s : Store) : result Store :=
  match ops with
  | [] => Ok s
  | op :: rest => bind (perform op s) (run_operations rest)
  end.

(** ** Snapshots as the runtime has them *)

(** The node records above hold rational numbers and absent keys only.  At
    run time a numeric field can also hold [NaN], an infinity or [-0], and a
    key can hold [undefined]; [JSON.parse(JSON.stringify(..))] does not
    bring these back.  This module has the values and the history engine
    as the runtime has them. *)
Module Runtime.

Inductive JsNumber : Type :=
| Finite (q : Q)
| NegZero
| NaN
| PosInfinity
| NegInfinity.

Inductive JsValue : Type :=
| Undefined
| Null
| Boolean (b : bool)
| Number (n : JsNumber)
| Str (s : string).

(** A node object: its own properties, in insertion order. *)
Definition JsObject : Type := list (string * JsValue).

(** [o[key]] *)
Definition get (o : JsObject) (key : string) : JsValue :=
  match find (fun kv => String.eqb (fst kv) key) o with
  | Some kv => snd kv
  | None => Undefined
  end.

(** [o[key] = v]: an existing key keeps its place, a new one goes last. *)
Fixpoint set_key (o : JsObject) (key : string) (v : JsValue) : JsObject :=
  match o with
  | [] => [(key, v)]
  | kv :: rest =>
      if String.eqb (fst kv) key then (key, v) :: rest else kv :: set_key rest key v
  end.

(** [{ ...o, ...updates }] *)
Definition spread (o updates : JsObject) : JsObject :=
  fold_left (fun acc kv => set_key acc (fst kv) (snd kv)) updates o.

(** [JSON.parse(JSON.stringify(v))] for the value of a property: [None]
    when the key is left out ([undefined]); [NaN] and the infinities are
    written as [null], [-0] as [0]. *)
Definition json_value (v : JsValue) : option JsValue :=
  match v with
  | Undefined => None
  | Number (Finite q) => Some (Number (Finite q))
  | Number NegZero => Some (Number (Finite 0))
  | Number _ => Some Null
  | _ => Some v
  end.

Definition json_object (o : JsObject) : JsObject :=
  flat_map (fun kv => match json_value (snd kv) with
                      | Some v => [(fst kv, v)]
                      | None => []
                      end) o.

Definition json_clone (nodes : list JsObject) : list JsObject :=
  map json_object nodes.

Record HistoryState : Type := mkHistoryState {
  hs_nodes : list JsObject;
  timestamp : Z
}.

(** The fields of the store that the history engine reads or writes. *)
Record Store : Type := mkStore {
  nodes : list JsObject;
  selectedNodeIds : list string;
  history : list HistoryState;
  historyIndex : Z
}.

Definition saveHistory (e : Env) (s : Store) : Store :=
  let newHistory := Js.slice0 (history s) (historyIndex s + 1) in
  let newHistory :=
    newHistory ++ [ {| hs_nodes := json_clone (nodes s); timestamp := now e |} ] in
  let newHistory :=
    if (50 <? length newHistory)%nat then Js.shift newHistory else newHistory in
  {| nodes := nodes s; selectedNodeIds := selectedNodeIds s;
     history := newHistory; historyIndex := Z.of_nat (length newHistory) - 1 |}.

Definition restore (s : Store) (newIndex : Z) : result Store :=
  match Js.index (history s) newIndex with
  | Some entry =>
      Ok {| nodes := json_clone (hs_nodes entry);
            selectedNodeIds := [];
            history := history s;
            historyIndex := newIndex |}
  | None => Throw
  end.

Definition undo (s : Store) : result Store :=
  if (0 <? historyIndex s)%Z
  then restore s (historyIndex s - 1)
  else Ok s.

Definition redo (s : Store) : result Store :=
  if (historyIndex s <? Z.of_nat (length (history s)) - 1)%Z
  then restore s (historyIndex s + 1)
  else Ok s.

(** [node.id === id] *)
Definition has_id (o : JsObject) (nid : string) : bool :=
  match get o "id" with
  | Str s => String.eqb s nid
  | _ => false
  end.

Definition updateNode (e : Env) (nid : string) (updates : JsObject) (s : Store) : Store :=
  saveHistory e
    {| nodes := map (fun node => if has_id node nid then spread node updates else node)
                    (nodes s);
       selectedNodeIds := selectedNodeIds s;
       history := history s;
       historyIndex := historyIndex s |}.

(** *** The node records as objects *)

Definition type_name (t : NodeType) : string :=
  match t with
  | Image => "image"
  | Video => "video"
  | Group => "group"
  | Text => "text"
  end.

Definition align_name (a : TextAlign) : string :=
  match a with
  | AlignLeft => "left"
  | AlignCenter => "center"
  | AlignRight => "right"
  | AlignJustify => "justify"
  end.

Definition num (q : Q) : JsValue := Number (Finite q).

(** An optional field: the key is absent when the record has [None]. *)
Definition optional {A : Type} (key : string) (f : A -> JsValue) (v : option A)
  : JsObject :=
  match v with
  | Some a => [(key, f a)]
  | None => []
  end.

Definition to_object (node : CanvasNode) : JsObject :=
  [("id", Str (id node)); ("type", Str (type_name (type node)))]
  ++ optional "assetId" Str (assetId node)
  ++ optional "url" Str (url node)
  ++ [("x", num (x node)); ("y", num (y node));
      ("width", num (width node)); ("height", num (height node));
      ("rotation", num (rotation node)); ("opacity", num (opacity node));
      ("locked", Boolean (locked node)); ("zIndex", num (zIndex node))]
  ++ optional "blendMode" Str (blendMode node)
  ++ optional "shadow" Boolean (shadow node)
  ++ optional "radius" num (radius node)
  ++ optional "text" Str (text node)
  ++ optional "fontFamily" Str (fontFamily node)
  ++ optional "fontSize" num (fontSize node)
  ++ optional "fontWeight" (fun w => match w with
                                     | inl name => Str name
                                     | inr weight => num weight
                                     end) (fontWeight node)
  ++ optional "fill" Str (fill node)
  ++ optional "textAlign" (fun a => Str (align_name a)) (textAlign node).

End Runtime.

(** The record model inside the runtime model. *)
Definition to_runtime_entry (entry : HistoryState) : Runtime.HistoryState :=
  {| Runtime.hs_nodes := map Runtime.to_object (hs_nodes entry);
     Runtime.timestamp := timestamp entry |}.

Definition to_runtime (s : Store) : Runtime.Store :=
  {| Runtime.nodes := map Runtime.to_object (nodes s);
     Runtime.selectedNodeIds := selectedNodeIds s;
     Runtime.history := map to_runtime_entry (history s);
     Runtime.historyIndex := historyIndex s |}.


(** * Properties *)

(** ** Basic facts *)

Lemma json_node_id : forall node, json_node node = node.
Proof. intros []; reflexivity. Qed.

Lemma json_clone_id : forall ns, json_clone ns = ns.
Proof.
  induction ns as [|n ns IH]; simpl; [reflexivity|].
  now rewrite json_node_id, IH.
Qed.

Lemma slice0_length : forall (A : Type) (arr : list A) (en : Z),
  (length (Js.slice0 arr en) <= length arr)%nat.
Proof. intros; unfold Js.slice0; rewrite length_firstn; lia. Qed.

Lemma slice0_all : forall (A : Type) (arr : list A),
  Js.slice0 arr (Z.of_nat (length arr)) = arr.
Proof.
  intros; unfold Js.slice0.
  destruct (Z.ltb_spec (Z.of_nat (length arr)) 0); [lia|].
  rewrite Z.min_id, Nat2Z.id; apply firstn_all.
Qed.

Lemma slice0_prefix : forall (A : Type) (arr : list A) (i : Z),
  (-1 <= i < Z.of_nat (length arr))%Z ->
  length (Js.slice0 arr (i + 1)) = Z.to_nat (i + 1).
Proof.
  intros A arr i H; unfold Js.slice0.
  destruct (Z.ltb_spec (i + 1) 0); [lia|].
  rewrite length_firstn; lia.
Qed.

Lemma index_nth : forall (A : Type) (arr : list A) (k : nat),
  Js.index arr (Z.of_nat k) = nth_error arr k.
Proof.
  intros; unfold Js.index.
  destruct (Z.ltb_spec (Z.of_nat k) 0); [lia|now rewrite Nat2Z.id].
Qed.

(** What appending one entry and evicting on overflow leaves. *)
Lemma evict_facts : forall (A : Type) (kept : list A) (entry : A),
  let appended := kept ++ [entry] in
  let h := if (50 <? length appended)%nat then tl appended else appended in
  h <> []
  /\ nth_error h (length h - 1) = Some entry
  /\ ((length kept <= 50)%nat -> (length h <= 50)%nat)
  /\ ((length kept < 50)%nat -> h = appended).
Proof.
  intros A kept entry appended h; subst appended h.
  rewrite length_app; simpl.
  destruct (Nat.ltb_spec 50 (length kept + 1)) as [Hlt|Hge].
  - destruct kept as [|a kept]; simpl in *; [lia|].
    repeat split.
    + destruct kept; discriminate.
    + rewrite length_app; simpl.
      replace (length kept + 1 - 1)%nat with (length kept) by lia.
      rewrite nth_error_app2, Nat.sub_diag by lia; reflexivity.
    + rewrite length_app; simpl; lia.
    + lia.
  - repeat split.
    + destruct kept; discriminate.
    + rewrite length_app; simpl.
      replace (length kept + 1 - 1)%nat with (length kept) by lia.
      rewrite nth_error_app2, Nat.sub_diag by lia; reflexivity.
    + rewrite length_app; simpl; lia.
Qed.

Lemma saveHistory_nodes : forall e s, nodes (saveHistory e s) = nodes s.
Proof. reflexivity. Qed.

Lemma saveHistory_selection : forall e s,
  selectedNodeIds (saveHistory e s) = selectedNodeIds s.
Proof. reflexivity. Qed.

Lemma saveHistory_history : forall e s,
  history (saveHistory e s) = captured e s (nodes s).
Proof. intros; unfold saveHistory, captured; simpl; now rewrite json_clone_id. Qed.

Lemma saveHistory_index : forall e s,
  historyIndex (saveHistory e s) = (Z.of_nat (length (history (saveHistory e s))) - 1)%Z.
Proof. reflexivity. Qed.

Lemma saveHistory_last : forall e s,
  history (saveHistory e s) <> []
  /\ Js.index (history (saveHistory e s)) (historyIndex (saveHistory e s))
     = Some {| hs_nodes := nodes s; timestamp := now e |}.
Proof.
  intros e s; rewrite saveHistory_index, saveHistory_history; unfold captured.
  destruct (evict_facts _ (Js.slice0 (history s) (historyIndex s + 1))
              {| hs_nodes := nodes s; timestamp := now e |}) as (Hne & Hlast & _).
  cbv zeta in Hne, Hlast; split; [exact Hne|].
  set (h := if (50 <? _)%nat then _ else _) in *.
  assert (length h <> 0)%nat by (destruct h; [congruence|discriminate]).
  replace (Z.of_nat (length h) - 1)%Z with (Z.of_nat (length h - 1)) by lia.
  now rewrite index_nth.
Qed.

Lemma saveHistory_ok : forall e s,
  (length (history s) <= 50)%nat -> history_ok (saveHistory e s).
Proof.
  intros e s Hlen; unfold history_ok.
  destruct (saveHistory_last e s) as [Hne _].
  rewrite saveHistory_index.
  assert (Hb : (length (history (saveHistory e s)) <= 50)%nat).
  { rewrite saveHistory_history; unfold captured.
    apply (evict_facts _ (Js.slice0 (history s) (historyIndex s + 1))).
    pose proof (slice0_length _ (history s) (historyIndex s + 1)); lia. }
  split; [exact Hb|split; [intros H; contradiction|intros _]].
  destruct (history (saveHistory e s)); simpl length in *; [congruence|lia].
Qed.

(** ** History engine *)

Lemma history_ok_ext : forall s s',
  history s' = history s -> historyIndex s' = historyIndex s ->
  history_ok s -> history_ok s'.
Proof. unfold history_ok; intros s s' -> ->; tauto. Qed.

(** An action that saves history is a state update followed by
    [saveHistory]; the update leaves the history alone. *)
Lemma step_saves : forall e a s,
  saves_history a s = true ->
  exists s0, step e a s = Ok (saveHistory e s0)
             /\ history s0 = history s /\ historyIndex s0 = historyIndex s.
Proof.
  intros e a s H; destruct a; try (simpl in H; discriminate); simpl;
    try (eexists; split; [reflexivity|split; reflexivity]).
  unfold alignNodes; unfold saves_history in H.
  destruct (length (selectedNodes s) <? 2)%nat; [simpl in H; discriminate|].
  eexists; split; [reflexivity|split; reflexivity].
Qed.

Lemma restore_ok : forall s i,
  history_ok s -> (0 <= i < Z.of_nat (length (history s)))%Z ->
  exists s', restore s i = Ok s' /\ history_ok s'
             /\ history s' = history s /\ historyIndex s' = i
             /\ selectedNodeIds s' = []
             /\ exists entry, Js.index (history s) i = Some entry
                              /\ nodes s' = hs_nodes entry.
Proof.
  intros s i (Hlen & Hnil & Hne) Hi; unfold restore.
  destruct (Js.index (history s) i) as [entry|] eqn:E.
  - eexists; split; [reflexivity|]; simpl.
    rewrite json_clone_id.
    split.
    { unfold history_ok; simpl; split; [exact Hlen|].
      split; [intros H; rewrite H in Hi; simpl in Hi; lia|intros _; exact Hi]. }
    repeat split; eauto.
  - exfalso; unfold Js.index in E.
    destruct (Z.ltb_spec i 0); [lia|].
    apply nth_error_None in E; lia.
Qed.

Lemma undo_ok : forall s,
  history_ok s -> exists s', undo s = Ok s' /\ history_ok s'.
Proof.
  intros s H; unfold undo.
  destruct (Z.ltb_spec 0 (historyIndex s)) as [Hpos|Hle]; [|eauto].
  pose proof H as (Hlen & Hnil & Hne).
  assert (Hh : history s <> []) by (intros E; specialize (Hnil E); lia).
  destruct (restore_ok s (historyIndex s - 1)) as (s' & E & Hok & _);
    [exact H|specialize (Hne Hh); lia|eauto].
Qed.

Lemma redo_ok : forall s,
  history_ok s -> exists s', redo s = Ok s' /\ history_ok s'.
Proof.
  intros s H; unfold redo.
  destruct (Z.ltb_spec (historyIndex s) (Z.of_nat (length (history s)) - 1))
    as [Hlt|Hge]; [|eauto].
  pose proof H as (Hlen & Hnil & Hne).
  assert (Hh : history s <> []).
  { intros E; specialize (Hnil E); rewrite E in Hlt; simpl in Hlt; lia. }
  destruct (restore_ok s (historyIndex s + 1)) as (s' & E & Hok & _);
    [exact H|specialize (Hne Hh); lia|eauto].
Qed.

Lemma step_history_ok : forall e a s,
  history_ok s -> exists s', step e a s = Ok s' /\ history_ok s'.
Proof.
  intros e a s H.
  destruct (saves_history a s) eqn:Hs.
  - destruct (step_saves e a s Hs) as (s0 & -> & Hh & _).
    eexists; split; [reflexivity|].
    apply saveHistory_ok; rewrite Hh; apply H.
  - destruct a; try (simpl in Hs; discriminate); simpl;
      try (eexists; split; [reflexivity|];
           apply (history_ok_ext s); [reflexivity|reflexivity|exact H]).
    + eexists; split; [reflexivity|].
      apply (history_ok_ext s); [destruct multi; reflexivity ..|exact H].
    + unfold alignNodes; unfold saves_history in Hs.
      destruct (length (selectedNodes s) <? 2)%nat; [eauto|simpl in Hs; discriminate].
    + now apply undo_ok.
    + now apply redo_ok.
Qed.

Lemma run_history_ok : forall actions s,
  history_ok s -> exists s', run actions s = Ok s' /\ history_ok s'.
Proof.
  induction actions as [|[e a] rest IH]; intros s H; simpl; [eauto|].
  destruct (step_history_ok e a s H) as (s1 & -> & H1); simpl.
  now apply IH.
Qed.

Lemma initial_history_ok : history_ok initial.
Proof. unfold history_ok, initial; simpl; repeat split; try lia; congruence. Qed.

(** C1 (history bound and index invariant).  Whatever sequence of store
    actions is run on the initial store, every action returns (none
    throws), the history holds at most 50 entries, and when the history is
    not empty the index lies inside it; and in the state so reached, any
    action that saves history leaves the index on the last entry. *)
Theorem history_bound_and_index : forall actions : list (Env * Action),
  exists s,
    run actions initial = Ok s
    /\ (length (history s) <= 50)%nat
    /\ (history s <> [] ->
        (0 <= historyIndex s < Z.of_nat (length (history s)))%Z)
    /\ (forall e a, saves_history a s = true ->
          exists s', step e a s = Ok s'
                     /\ historyIndex s' = (Z.of_nat (length (history s')) - 1)%Z).
Proof.
  intros actions.
  destruct (run_history_ok actions initial initial_history_ok) as (s & Hrun & Hok).
  exists s; split; [exact Hrun|].
  destruct Hok as (Hlen & _ & Hne).
  split; [exact Hlen|split; [exact Hne|]].
  intros e a Hs.
  destruct (step_saves e a s Hs) as (s0 & -> & _).
  eexists; split; [reflexivity|apply saveHistory_index].
Qed.

(** ** Undo and redo *)

Lemma restore_some : forall s i entry,
  Js.index (history s) i = Some entry ->
  restore s i = Ok {| nodes := hs_nodes entry; selectedNodeIds := [];
                      canvasMode := canvasMode s; history := history s;
                      historyIndex := i |}.
Proof. intros s i entry E; unfold restore; now rewrite E, json_clone_id. Qed.


(** *** The snapshots at run time *)

Lemma json_object_app : forall a b,
  Runtime.json_object (a ++ b) = Runtime.json_object a ++ Runtime.json_object b.
Proof. intros a b; unfold Runtime.json_object; apply flat_map_app. Qed.

Lemma json_optional : forall (A : Type) key (f : A -> Runtime.JsValue) v,
  (forall a, Runtime.json_value (f a) = Some (f a)) ->
  Runtime.json_object (Runtime.optional key f v) = Runtime.optional key f v.
Proof.
  intros A key f [a|] H; [|reflexivity].
  unfold Runtime.json_object; simpl; now rewrite H.
Qed.

(** On the objects of the node records (finite numbers, absent keys) the
    JSON copy of the runtime loses nothing. *)
Lemma json_object_to_object : forall node,
  Runtime.json_object (Runtime.to_object node) = Runtime.to_object node.
Proof.
  intros node; unfold Runtime.to_object.
  rewrite !json_object_app.
  rewrite !json_optional; try reflexivity.
  intros [name|weight]; reflexivity.
Qed.

Lemma json_clone_to_objects : forall ns,
  Runtime.json_clone (map Runtime.to_object ns) = map Runtime.to_object (json_clone ns).
Proof.
  intros ns; rewrite json_clone_id; unfold Runtime.json_clone.
  rewrite map_map; apply map_ext, json_object_to_object.
Qed.

Lemma slice0_map : forall (A B : Type) (f : A -> B) (arr : list A) en,
  Js.slice0 (map f arr) en = map f (Js.slice0 arr en).
Proof.
  intros A B f arr en; unfold Js.slice0; now rewrite length_map, firstn_map.
Qed.


(** The history engine of the record model is the engine of the runtime
    on the objects of the records. *)
Lemma saveHistory_to_runtime : forall e s,
  Runtime.saveHistory e (to_runtime s) = to_runtime (saveHistory e s).
Proof.
  intros e s; unfold Runtime.saveHistory, saveHistory, to_runtime, set_history.
  cbn [Runtime.nodes Runtime.selectedNodeIds Runtime.history Runtime.historyIndex
       nodes selectedNodeIds history historyIndex].
  rewrite slice0_map, json_clone_to_objects.
  set (ap := Js.slice0 (history s) (historyIndex s + 1)
             ++ [ {| hs_nodes := json_clone (nodes s); timestamp := now e |} ]).
  assert (E : map to_runtime_entry (Js.slice0 (history s) (historyIndex s + 1))
              ++ [ {| Runtime.hs_nodes := map Runtime.to_object (json_clone (nodes s));
                      Runtime.timestamp := now e |} ]
              = map to_runtime_entry ap)
    by (unfold ap; rewrite map_app; reflexivity).
  rewrite E, !length_map.
  destruct (50 <? length ap)%nat; [|now rewrite length_map].
  unfold Js.shift; f_equal; [now destruct ap|].
  destruct ap; [reflexivity|simpl; now rewrite length_map].
Qed.







(** ** Selection validity and missing ids *)

Lemma includes_In : forall arr v, Js.includes arr v = true <-> In v arr.
Proof.
  intros arr v; unfold Js.includes; rewrite existsb_exists; split.
  - intros (w & Hin & E); apply String.eqb_eq in E; now subst.
  - intros Hin; exists v; split; [exact Hin|apply String.eqb_refl].
Qed.

Lemma includes_false : forall arr v, Js.includes arr v = false <-> ~ In v arr.
Proof.
  intros arr v; rewrite <- includes_In.
  destruct (Js.includes arr v); split; congruence.
Qed.

Lemma filter_all : forall (A : Type) (p : A -> bool) (l : list A),
  (forall a, In a l -> p a = true) -> filter p l = l.
Proof.
  induction l as [|a l IH]; intros H; simpl; [reflexivity|].
  rewrite (H a (or_introl eq_refl)), IH; [reflexivity|].
  intros b Hb; apply H; now right.
Qed.

Lemma filter_none : forall (A : Type) (p : A -> bool) (l : list A),
  (forall a, In a l -> p a = false) -> filter p l = [].
Proof.
  induction l as [|a l IH]; intros H; simpl; [reflexivity|].
  rewrite (H a (or_introl eq_refl)); apply IH.
  intros b Hb; apply H; now right.
Qed.

Lemma map_unchanged : forall (A : Type) (f : A -> A) (l : list A),
  (forall a, In a l -> f a = a) -> map f l = l.
Proof.
  induction l as [|a l IH]; intros H; simpl; [reflexivity|].
  rewrite (H a (or_introl eq_refl)), IH; [reflexivity|].
  intros b Hb; apply H; now right.
Qed.

Lemma step_selection_valid : forall e a s,
  add_or_delete a = true -> selection_valid s ->
  exists s', step e a s = Ok s' /\ selection_valid s'.
Proof.
  intros e a s Ha Hv; destruct a; try discriminate; simpl;
    (eexists; split; [reflexivity|]); unfold selection_valid; simpl.
  - intros i Hi; rewrite map_app, in_app_iff; left; now apply Hv.
  - intros i Hi; apply filter_In in Hi; destruct Hi as [Hi Hne].
    apply Hv in Hi; apply in_map_iff in Hi; destruct Hi as (n & <- & Hn).
    apply in_map, filter_In; split; [exact Hn|].
    exact Hne.
  - intros i [].
Qed.

(** C7 (selection validity).  From a state in which every selected id
    references a node, any sequence of [addNode], [deleteNode] and
    [deleteSelectedNodes] calls returns and leaves a state in which every
    selected id references a node. *)
Theorem selection_stays_valid : forall (actions : list (Env * Action)) (s : Store),
  forallb (fun ea => add_or_delete (snd ea)) actions = true ->
  selection_valid s ->
  exists s', run actions s = Ok s' /\ selection_valid s'.
Proof.
  induction actions as [|[e a] rest IH]; intros s Hall Hv; simpl; [eauto|].
  simpl in Hall; apply andb_true_iff in Hall; destruct Hall as [Ha Hrest].
  destruct (step_selection_valid e a s Ha Hv) as (s1 & -> & Hv1); simpl.
  now apply IH.
Qed.

Lemma selection_stays_valid_witness :
  exists s',
    run [(sample_env, AddNode (sample_node "c" 0 0 10 10));
         (sample_env, DeleteNode "a");
         (sample_env, DeleteSelectedNodes)]
        (sample_store [sample_node "a" 0 0 10 10; sample_node "b" 5 5 10 10] ["a"; "b"])
    = Ok s'
    /\ selection_valid s'.
Proof.
  apply (selection_stays_valid
           [(sample_env, AddNode (sample_node "c" 0 0 10 10));
            (sample_env, DeleteNode "a");
            (sample_env, DeleteSelectedNodes)]
           (sample_store [sample_node "a" 0 0 10 10; sample_node "b" 5 5 10 10]
                         ["a"; "b"])).
  - reflexivity.
  - intros i Hi; simpl in *; tauto.
Defined.

(** C8, amended (silent no-op on a missing id).  For an id that no node
    carries, [updateNode] and [deleteNode] both return and leave the node
    collection as it was, and both capture one history entry.
    [updateNode] leaves the selection as it was.  [deleteNode] takes the
    id out of the selection: the selection is as it was exactly when the
    id was not selected, and so whenever every selected id references a
    node. *)
Theorem missing_id_is_silent_noop : forall e nid updates s,
  ~ In nid (map id (nodes s)) ->
  (exists s', step e (UpdateNode nid updates) s = Ok s'
              /\ nodes s' = nodes s
              /\ selectedNodeIds s' = selectedNodeIds s
              /\ history s' = captured e s (nodes s)
              /\ historyIndex s' = (Z.of_nat (length (history s')) - 1)%Z)
  /\ (exists s', step e (DeleteNode nid) s = Ok s'
                 /\ nodes s' = nodes s
                 /\ selectedNodeIds s'
                    = filter (fun sel => negb (String.eqb sel nid)) (selectedNodeIds s)
                 /\ (forall i, In i (selectedNodeIds s')
                               <-> In i (selectedNodeIds s) /\ i <> nid)
                 /\ (selectedNodeIds s' = selectedNodeIds s
                     <-> ~ In nid (selectedNodeIds s))
                 /\ (selection_valid s -> selectedNodeIds s' = selectedNodeIds s)
                 /\ history s' = captured e s (nodes s)
                 /\ historyIndex s' = (Z.of_nat (length (history s')) - 1)%Z).
Proof.
  intros e nid updates s Hnot.
  assert (Hne : forall n, In n (nodes s) -> String.eqb (id n) nid = false).
  { intros n Hn; apply String.eqb_neq; intros E; apply Hnot.
    rewrite <- E; now apply in_map. }
  split; simpl; (eexists; split; [reflexivity|]).
  - assert (Hm : map (fun node => if String.eqb (id node) nid
                                  then merge node updates else node) (nodes s)
                 = nodes s).
    { apply map_unchanged; intros n Hn; now rewrite (Hne n Hn). }
    unfold updateNode; rewrite Hm.
    repeat split.
    rewrite saveHistory_history; reflexivity.
  - assert (Hn : filter (fun node => negb (String.eqb (id node) nid)) (nodes s)
                 = nodes s)
      by (apply filter_all; intros n Hn; now rewrite (Hne n Hn)).
    assert (Hkeep : ~ In nid (selectedNodeIds s) ->
                    filter (fun sel => negb (String.eqb sel nid)) (selectedNodeIds s)
                    = selectedNodeIds s).
    { intros Hs; apply filter_all; intros i Hi.
      apply negb_true_iff, String.eqb_neq; intros E; subst i; contradiction. }
    unfold deleteNode; rewrite saveHistory_nodes, saveHistory_selection.
    cbn [nodes selectedNodeIds set_nodes_selection].
    split; [exact Hn|split; [reflexivity|split; [|split; [|split; [|split]]]]].
    + intros i; rewrite filter_In, negb_true_iff, String.eqb_neq; tauto.
    + split; [|exact Hkeep].
      intros E Hin.
      assert (H : In nid (filter (fun sel => negb (String.eqb sel nid))
                                 (selectedNodeIds s))) by now rewrite E.
      apply filter_In in H; destruct H as [_ H].
      now rewrite String.eqb_refl in H.
    + intros Hv; apply Hkeep; intros Hin; apply Hnot, Hv, Hin.
    + rewrite saveHistory_history; cbn [nodes set_nodes_selection].
      rewrite Hn; reflexivity.
    + reflexivity.
Qed.

Lemma missing_id_is_silent_noop_witness :
  (exists s', step sample_env (UpdateNode "zz" (mkPartial None None None None
                 (Some 7) None None None None None None None None None None None
                 None None None None None))
                 (sample_store [sample_node "a" 0 0 10 10] ["a"]) = Ok s'
              /\ nodes s' = [sample_node "a" 0 0 10 10]
              /\ selectedNodeIds s' = ["a"])
  /\ (exists s', step sample_env (DeleteNode "zz")
                   (sample_store [sample_node "a" 0 0 10 10] ["a"]) = Ok s'
                 /\ nodes s' = [sample_node "a" 0 0 10 10]
                 /\ selectedNodeIds s' = ["a"]).
Proof.
  destruct (missing_id_is_silent_noop sample_env "zz"
              (mkPartial None None None None
                 (Some 7) None None None None None None None None None None None
                 None None None None None)
              (sample_store [sample_node "a" 0 0 10 10] ["a"]))
    as [(s1 & E1 & Hn1 & Hs1 & _) (s2 & E2 & Hn2 & _ & _ & _ & Hs2 & _)].
  - simpl; intros [H|[]]; discriminate.
  - split; [exists s1|exists s2]; repeat split; try assumption.
    apply Hs2; intros i Hi; simpl in *; tauto.
Defined.

(** C8 as stated fails for a selected id that references no node: in the
    state reached by adding a node and selecting the ids ["zz"] and
    ["new0"], no node carries ["zz"], and [deleteNode] of ["zz"] changes
    the selection. *)
Lemma dangling_selection_counterexample :
  exists s s',
    run [(sample_env, AddNode (sample_node "" 0 0 10 10));
         (sample_env, SelectNodes ["zz"; "new0"])] initial = Ok s
    /\ ~ In "zz" (map id (nodes s))
    /\ step sample_env (DeleteNode "zz") s = Ok s'
    /\ nodes s' = nodes s
    /\ selectedNodeIds s = ["zz"; "new0"]
    /\ selectedNodeIds s' = ["new0"]
    /\ selectedNodeIds s' <> selectedNodeIds s.
Proof.
  do 2 eexists; split; [reflexivity|].
  split; [simpl; intros [H|[]]; discriminate|].
  split; [reflexivity|].
  repeat split; discriminate.
Qed.

(** ** Duplication *)



Lemma indexed_from_fst : forall (A : Type) (l : list A) k,
  map fst (indexed_from k l) = seq k (length l).
Proof. induction l; intros; simpl; [reflexivity|now rewrite IHl]. Qed.

Lemma selectedNodes_nil : forall s,
  (forall i, In i (selectedNodeIds s) -> ~ In i (map id (nodes s))) ->
  selectedNodes s = [].
Proof.
  intros s H; unfold selectedNodes; apply filter_none.
  intros n Hn; apply includes_false; intros Hi.
  apply (H _ Hi); now apply in_map.
Qed.



(** ** The entry below a new capture *)

Lemma evict_prev : forall (A : Type) (h : list A) (i : nat) (entry : A),
  (i < length h)%nat -> (length h <= 50)%nat ->
  let appended := firstn (S i) h ++ [entry] in
  let h' := if (50 <? length appended)%nat then tl appended else appended in
  nth_error h' (length h' - 2) = nth_error h i
  /\ (2 <= length h')%nat
  /\ length h' = Nat.min (i + 2) 50.
Proof.
  intros A h i entry Hi Hlen appended h'.
  assert (Hk : length (firstn (S i) h) = S i) by (rewrite length_firstn; lia).
  assert (Ha : length appended = (i + 2)%nat)
    by (unfold appended; rewrite length_app, Hk; simpl; lia).
  assert (Hn : nth_error appended i = nth_error h i).
  { unfold appended; rewrite nth_error_app1 by lia.
    rewrite nth_error_firstn.
    destruct (Nat.ltb_spec i (S i)); [reflexivity|lia]. }
  subst h'; destruct (Nat.ltb_spec 50 (length appended)) as [Hlt|Hge].
  - assert (i = 49)%nat by lia; subst i.
    destruct appended as [|a0 rest]; [simpl in Ha; lia|].
    simpl in Ha |- *; injection Ha as Ha; rewrite Ha.
    split; [exact Hn|split; lia].
  - rewrite Ha; replace (i + 2 - 2)%nat with i by lia.
    split; [exact Hn|split; lia].
Qed.

Lemma slice0_firstn : forall (A : Type) (h : list A) (i : Z),
  (0 <= i < Z.of_nat (length h))%Z ->
  Js.slice0 h (i + 1) = firstn (S (Z.to_nat i)) h.
Proof.
  intros A h i Hi; unfold Js.slice0.
  destruct (Z.ltb_spec (i + 1) 0); [lia|].
  f_equal; lia.
Qed.

(** After a capture in a state with a non-empty history, the entry below
    the new index is the entry that was under the old index. *)
Lemma saveHistory_prev : forall e s,
  history_ok s -> history s <> [] ->
  let s' := saveHistory e s in
  Js.index (history s') (historyIndex s' - 1) = Js.index (history s) (historyIndex s)
  /\ (0 < historyIndex s')%Z
  /\ length (history s') = Nat.min (Z.to_nat (historyIndex s) + 2) 50.
Proof.
  intros e s (Hlen & _ & Hne) Hh s'; specialize (Hne Hh).
  pose proof (evict_prev _ (history s) (Z.to_nat (historyIndex s))
                {| hs_nodes := nodes s; timestamp := now e |}) as H.
  cbv zeta in H; destruct H as (Hprev & Htwo & Hl); [lia|exact Hlen|].
  assert (Eh : history s' = captured e s (nodes s)) by apply saveHistory_history.
  unfold captured in Eh; rewrite slice0_firstn in Eh by lia.
  assert (Ei : historyIndex s' = (Z.of_nat (length (history s')) - 1)%Z)
    by apply saveHistory_index.
  rewrite Ei, Eh.
  set (ap := firstn (S (Z.to_nat (historyIndex s))) (history s) ++ _) in *.
  set (h' := if (50 <? length ap)%nat then tl ap else ap) in *.
  split; [|split; [lia|exact Hl]].
  replace (Z.of_nat (length h') - 1 - 1)%Z with (Z.of_nat (length h' - 2)) by lia.
  rewrite index_nth, Hprev.
  replace (historyIndex s) with (Z.of_nat (Z.to_nat (historyIndex s))) at 2 by lia.
  now rewrite index_nth.
Qed.

(** ** Reachable states keep history and nodes in step *)

Lemma saveHistory_synced : forall e s, history_synced (saveHistory e s).
Proof.
  intros e s entry H.
  destruct (saveHistory_last e s) as [_ Hlast].
  rewrite Hlast in H; injection H as <-; reflexivity.
Qed.

Lemma step_synced : forall e a s s',
  history_ok s -> history_synced s -> step e a s = Ok s' -> history_synced s'.
Proof.
  intros e a s s' Hok Hsy Hstep.
  destruct (saves_history a s) eqn:Hs.
  - destruct (step_saves e a s Hs) as (s0 & E & _).
    rewrite E in Hstep; injection Hstep as <-; apply saveHistory_synced.
  - destruct a; try (simpl in Hs; discriminate); simpl in Hstep.
    + injection Hstep as <-; destruct multi; exact Hsy.
    + injection Hstep as <-; exact Hsy.
    + injection Hstep as <-; exact Hsy.
    + unfold alignNodes in Hstep; unfold saves_history in Hs.
      destruct (length (selectedNodes s) <? 2)%nat; [|simpl in Hs; discriminate].
      injection Hstep as <-; exact Hsy.
    + injection Hstep as <-; exact Hsy.
    + unfold undo in Hstep.
      destruct (Z.ltb_spec 0 (historyIndex s)) as [Hpos|Hle];
        [|injection Hstep as <-; exact Hsy].
      pose proof Hok as (Hlen & Hnil & Hne).
      assert (Hh : history s <> []) by (intros E; specialize (Hnil E); lia).
      destruct (restore_ok s (historyIndex s - 1) Hok) as
        (s1 & E & _ & Hh1 & Hi1 & _ & entry & He & Hn1);
        [specialize (Hne Hh); lia|].
      rewrite E in Hstep; injection Hstep as <-.
      intros entry' He'; rewrite Hh1, Hi1, He in He'; injection He' as <-.
      now rewrite Hn1.
    + unfold redo in Hstep.
      destruct (Z.ltb_spec (historyIndex s) (Z.of_nat (length (history s)) - 1))
        as [Hlt|Hge]; [|injection Hstep as <-; exact Hsy].
      pose proof Hok as (Hlen & Hnil & Hne).
      assert (Hh : history s <> []).
      { intros E; specialize (Hnil E); rewrite E in Hlt; simpl in Hlt; lia. }
      destruct (restore_ok s (historyIndex s + 1) Hok) as
        (s1 & E & _ & Hh1 & Hi1 & _ & entry & He & Hn1);
        [specialize (Hne Hh); lia|].
      rewrite E in Hstep; injection Hstep as <-.
      intros entry' He'; rewrite Hh1, Hi1, He in He'; injection He' as <-.
      now rewrite Hn1.
Qed.

Lemma run_reachable : forall actions s0 s,
  history_ok s0 -> history_synced s0 -> run actions s0 = Ok s ->
  history_ok s /\ history_synced s.
Proof.
  induction actions as [|[e a] rest IH]; intros s0 s Hok Hsy Hrun; simpl in Hrun.
  - injection Hrun as <-; now split.
  - destruct (step_history_ok e a s0 Hok) as (s1 & E & Hok1).
    rewrite E in Hrun; simpl in Hrun.
    apply (IH s1 s Hok1); [|exact Hrun].
    exact (step_synced e a s0 s1 Hok Hsy E).
Qed.

Lemma initial_synced : history_synced initial.
Proof. intros entry H; discriminate. Qed.

(** *** Project loads and the history *)

Lemma perform_history_ok : forall op s,
  history_ok s -> exists s', perform op s = Ok s' /\ history_ok s'.
Proof.
  intros [e a|response|response] s H; cbn [perform].
  - now apply step_history_ok.
  - eexists; split; [reflexivity|].
    apply (history_ok_ext s); [destruct response; reflexivity ..|exact H].
  - eexists; split; [reflexivity|].
    apply (history_ok_ext s); [destruct response; reflexivity ..|exact H].
Qed.

(** Whatever actions and project loads are run, none throws, and the
    history stays within its bounds. *)
Lemma operations_history_ok : forall ops s,
  history_ok s -> exists s', run_operations ops s = Ok s' /\ history_ok s'.
Proof.
  induction ops as [|op rest IH]; intros s H; simpl; [eauto|].
  destruct (perform_history_ok op s H) as (s1 & -> & H1); simpl.
  now apply IH.
Qed.

Lemma operations_reach_ok : forall ops s,
  run_operations ops initial = Ok s -> history_ok s.
Proof.
  intros ops s H.
  destruct (operations_history_ok ops initial initial_history_ok) as (s' & E & Hok).
  rewrite H in E; now injection E as <-.
Qed.

(** A capture brings the history in step with the nodes, whatever the
    state before. *)
Lemma capture_resyncs : forall e a s s',
  saves_history a s = true -> step e a s = Ok s' -> history_synced s'.
Proof.
  intros e a s s' Hs Hstep.
  destruct (step_saves e a s Hs) as (s0 & E & _).
  rewrite E in Hstep; injection Hstep as <-; apply saveHistory_synced.
Qed.

(** A project load breaks it: the entry under the index still holds the
    nodes of before the load. *)
Lemma project_load_leaves_history :
  let s := addNode sample_env (sample_node "a" 0 0 10 10) initial in
  let s' := loadProject (Some [sample_node "p" 5 5 20 20]) s in
  history s' = history s
  /\ historyIndex s' = historyIndex s
  /\ selectedNodeIds s' = selectedNodeIds s
  /\ nodes s' = [sample_node "p" 5 5 20 20]
  /\ history_synced s
  /\ ~ history_synced s'.
Proof.
  intros s s'; repeat split.
  - apply saveHistory_synced.
  - intros H; specialize (H _ eq_refl); discriminate H.
Qed.

(** C10, amended (a no-op duplicate consumes an undo step).  In any state
    reached from the initial store by canvas actions and project loads,
    when no selected id references a node (the selection may be empty),
    [duplicateSelected] leaves the node collection as it was and the
    selection empty, and still captures one history entry: the entry under
    the new index is a snapshot of the unchanged node collection.  The
    entry below it is the entry that was under the index before; the two
    hold the same nodes when that entry held the current node collection
    (which a project load can break).  The index moves one up; only when it
    already was 49, the cap, it stays 49 because the oldest of the 50
    entries is evicted. *)
Theorem noop_duplicate_consumes_history : forall ops e s,
  run_operations ops initial = Ok s ->
  (forall i, In i (selectedNodeIds s) -> ~ In i (map id (nodes s))) ->
  let s' := duplicateSelected e s in
  nodes s' = nodes s
  /\ selectedNodeIds s' = []
  /\ history s' = captured e s (nodes s)
  /\ Js.index (history s') (historyIndex s')
     = Some {| hs_nodes := nodes s; timestamp := now e |}
  /\ (history s <> [] ->
      Js.index (history s') (historyIndex s' - 1) = Js.index (history s) (historyIndex s)
      /\ (history_synced s ->
          forall prev, Js.index (history s') (historyIndex s' - 1) = Some prev ->
                       hs_nodes prev = nodes s'))
  /\ ((historyIndex s < 49)%Z ->
      historyIndex s' = (historyIndex s + 1)%Z
      /\ length (history s') = Z.to_nat (historyIndex s + 2))
  /\ (historyIndex s = 49%Z ->
      historyIndex s' = 49%Z /\ length (history s') = 50%nat).
Proof.
  intros ops e s Hrun Hsel s'.
  pose proof (operations_reach_ok ops s Hrun) as Hok.
  assert (E : s' = saveHistory e (set_nodes_selection s (nodes s) [])).
  { subst s'; unfold duplicateSelected.
    rewrite (selectedNodes_nil s Hsel); simpl; now rewrite app_nil_r. }
  rewrite E.
  set (s0 := set_nodes_selection s (nodes s) []).
  assert (Hok0 : history_ok s0) by (apply (history_ok_ext s); auto).
  destruct (saveHistory_last e s0) as [_ Hlast].
  split; [reflexivity|split; [reflexivity|]].
  split; [now rewrite saveHistory_history|].
  split; [exact Hlast|].
  split.
  { intros Hne.
    destruct (saveHistory_prev e s0 Hok0 Hne) as (Hprev & _).
    split; [exact Hprev|].
    intros Hsy prev Hp; rewrite Hprev in Hp.
    rewrite saveHistory_nodes; exact (Hsy prev Hp). }
  assert (Hrange : (-1 <= historyIndex s < Z.of_nat (length (history s)))%Z).
  { destruct Hok as (_ & Hnil & Hne).
    destruct (history s) as [|h0 hs] eqn:Eh.
    - rewrite (Hnil eq_refl); simpl; lia.
    - assert (h0 :: hs <> []) by discriminate; specialize (Hne H); lia. }
  pose proof (slice0_prefix _ (history s) (historyIndex s) Hrange) as Hkept.
  rewrite saveHistory_index, saveHistory_history; unfold captured.
  change (history s0) with (history s); change (historyIndex s0) with (historyIndex s).
  set (ap := Js.slice0 (history s) (historyIndex s + 1) ++ _).
  assert (Hl : length ap = (Z.to_nat (historyIndex s + 1) + 1)%nat)
    by (subst ap; rewrite length_app, Hkept; reflexivity).
  clearbody ap.
  split; intros Hi.
  - destruct (Nat.ltb_spec 50 (length ap)); lia.
  - destruct (Nat.ltb_spec 50 (length ap)); [|lia].
    destruct ap as [|h ap]; [simpl in Hl; lia|].
    unfold Js.shift; simpl in Hl |- *; split; lia.
Qed.

Lemma noop_duplicate_consumes_history_witness :
  let s := addNode sample_env (sample_node "a" 10 10 50 50)
             (loadProject (Some [sample_node "p" 5 5 20 20]) initial) in
  let s' := duplicateSelected sample_env s in
  nodes s' = nodes s
  /\ selectedNodeIds s' = []
  /\ history s' = captured sample_env s (nodes s)
  /\ Js.index (history s') (historyIndex s')
     = Some {| hs_nodes := nodes s; timestamp := now sample_env |}
  /\ (history s <> [] ->
      Js.index (history s') (historyIndex s' - 1) = Js.index (history s) (historyIndex s)
      /\ (history_synced s ->
          forall prev, Js.index (history s') (historyIndex s' - 1) = Some prev ->
                       hs_nodes prev = nodes s'))
  /\ ((historyIndex s < 49)%Z ->
      historyIndex s' = (historyIndex s + 1)%Z
      /\ length (history s') = Z.to_nat (historyIndex s + 2))
  /\ (historyIndex s = 49%Z ->
      historyIndex s' = 49%Z /\ length (history s') = 50%nat).
Proof.
  apply (noop_duplicate_consumes_history
           [LoadProject (Some [sample_node "p" 5 5 20 20]);
            Act sample_env (AddNode (sample_node "a" 10 10 50 50))] sample_env
           (addNode sample_env (sample_node "a" 10 10 50 50)
              (loadProject (Some [sample_node "p" 5 5 20 20]) initial))).
  - reflexivity.
  - intros i [].
Defined.

(** C10 as stated fails when the history is full: after fifty [addNode]
    calls the index is 49, and a no-op [duplicateSelected] leaves it at 49
    (the oldest of the fifty entries is evicted), so the index does not
    advance. *)
Lemma full_history_counterexample :
  exists s,
    run fifty_adds initial = Ok s
    /\ selectedNodeIds s = []
    /\ length (nodes s) = 50%nat
    /\ length (history s) = 50%nat
    /\ historyIndex s = 49%Z
    /\ nodes (duplicateSelected sample_env s) = nodes s
    /\ length (history (duplicateSelected sample_env s)) = 50%nat
    /\ historyIndex (duplicateSelected sample_env s) = historyIndex s.
Proof.
  eexists; split; [vm_compute; reflexivity|].
  vm_compute; repeat split; reflexivity.
Qed.

(** ** Sorting by a numeric key *)

Lemma gt_lt : forall a b, Js.gt a b = true <-> b < a.
Proof.
  intros a b; unfold Js.gt; rewrite negb_true_iff.
  destruct (Qle_bool a b) eqn:E.
  - apply Qle_bool_iff in E; split; [discriminate|intros H; exfalso; lra].
  - split; [intros _|reflexivity].
    apply Qnot_le_lt; intros H; apply Qle_bool_iff in H; congruence.
Qed.

Lemma gt_false : forall a b, Js.gt a b = false <-> a <= b.
Proof.
  intros a b; unfold Js.gt; rewrite negb_false_iff; apply Qle_bool_iff.
Qed.

Section StableSort.

Variable A : Type.
Variable key : A -> Q.

Let cmp : A -> A -> Q := fun a b => key a - key b.







End StableSort.

(** ** Sums and means *)





(** ** The largest value and the column count *)




(** ** Placing nodes by id *)

Lemma with_xy_id : forall node nx ny, id (with_xy node nx ny) = id node.
Proof. reflexivity. Qed.


Lemma NoDup_map_filter : forall (p : CanvasNode -> bool) l,
  NoDup (map id l) -> NoDup (map id (filter p l)).
Proof.
  induction l as [|a l IH]; intros Hnd; simpl; [constructor|].
  inversion Hnd as [|? ? Hnot Hnd']; subst.
  destruct (p a); simpl; [|now apply IH].
  constructor; [|now apply IH].
  intros Hin; apply Hnot; apply in_map_iff in Hin.
  destruct Hin as (n & E & Hn); apply filter_In in Hn.
  rewrite <- E; apply in_map; tauto.
Qed.











(** ** Row alignment *)



(** ** Grid arrangement *)






(** ** Selection cardinality by mode *)

Lemma multi_event_ids : forall ev,
  (1 < length (event_ids (selected ev)))%nat ->
  exists first second rest,
    event_ids (selected ev) = first :: second :: rest /\ selected ev <> [].
Proof.
  intros ev H.
  destruct (event_ids (selected ev)) as [|first [|second rest]] eqn:E;
    simpl in H; try lia.
  exists first, second, rest; split; [reflexivity|].
  intros En; rewrite En in E; discriminate.
Qed.

(** C4, amended (mode cardinality).  For a selection event that carries
    more than one node id:
    - when the store is in [chat] mode and the mount handlers were
      registered in [chat] mode (they read the mode that their closure
      captured when the component mounted), both the ['selection:created']
      and the ['selection:updated'] event leave the selection empty: the
      multi-selection is discarded, not truncated;
    - the mount handler of ['selection:created'] does the same when it
      sees [dragdrop], but the one of ['selection:updated'] stores all the
      ids, and so does [handleSelection], which the drag-and-drop effect
      runs after either handler: in [dragdrop] mode both events leave all
      the ids of the event selected, whatever mode the mount handlers
      see. *)
Theorem mode_cardinality : forall mounted ev s,
  (1 < length (event_ids (selected ev)))%nat ->
  (canvasMode s = Chat -> mounted = Chat ->
   selectedNodeIds (fire_selection_created mounted ev s) = []
   /\ selectedNodeIds (fire_selection_updated mounted ev s) = [])
  /\ selectedNodeIds (on_selection_created Dragdrop ev s) = []
  /\ selectedNodeIds (on_selection_updated Dragdrop ev s) = event_ids (selected ev)
  /\ (canvasMode s = Dragdrop ->
      selectedNodeIds (fire_selection_created mounted ev s) = event_ids (selected ev)
      /\ selectedNodeIds (fire_selection_updated mounted ev s) = event_ids (selected ev)).
Proof.
  intros mounted ev s H.
  destruct (multi_event_ids ev H) as (first & second & rest & E & Hne).
  split; [|split; [|split]].
  - intros Hs ->; unfold fire_selection_created, fire_selection_updated.
    rewrite Hs; unfold on_selection_created, on_selection_updated.
    rewrite E; split; reflexivity.
  - unfold on_selection_created; rewrite E; reflexivity.
  - unfold on_selection_updated; rewrite E; reflexivity.
  - intros Hs; unfold fire_selection_created, fire_selection_updated.
    rewrite Hs; unfold handleSelection.
    destruct (selected ev); [congruence|]; split; reflexivity.
Qed.

Lemma mode_cardinality_witness :
  let ev := {| selected := [Some "a"; Some "b"]; deselected := [] |} in
  let s := setCanvasMode Chat
             (sample_store [sample_node "a" 0 0 10 10; sample_node "b" 5 5 10 10] ["a"]) in
  selectedNodeIds (fire_selection_created Chat ev s) = []
  /\ selectedNodeIds (fire_selection_updated Chat ev s) = [].
Proof.
  intros ev s.
  destruct (mode_cardinality Chat ev s) as [Hchat _].
  - simpl; lia.
  - apply Hchat; reflexivity.
Defined.

(** C4 as stated fails in [dragdrop] mode: a rectangle selection of two
    nodes, and likewise a selection update to two nodes, leaves both ids
    selected, not none. *)
Lemma dragdrop_multi_selection_counterexample :
  let ev := {| selected := [Some "a"; Some "b"]; deselected := [] |} in
  let s := setCanvasMode Dragdrop
             (sample_store [sample_node "a" 0 0 10 10; sample_node "b" 5 5 10 10] []) in
  canvasMode s = Dragdrop
  /\ selectedNodeIds (fire_selection_created Dragdrop ev s) = ["a"; "b"]
  /\ selectedNodeIds (fire_selection_updated Dragdrop ev s) = ["a"; "b"]
  /\ selectedNodeIds (on_selection_updated Dragdrop ev s) = ["a"; "b"].
Proof. repeat split. Qed.

(** A slip beside the claim: the mount effect has no dependencies, so its
    handlers keep the mode of the mount.  Mounted in [select] mode (the
    initial mode of the store) and switched to [chat] afterwards, they
    store a multi-selection as in [select] mode. *)
Lemma stale_mode_keeps_multi_selection :
  let ev := {| selected := [Some "a"; Some "b"]; deselected := [] |} in
  let s := setCanvasMode Chat
             (sample_store [sample_node "a" 0 0 10 10; sample_node "b" 5 5 10 10] []) in
  canvasMode s = Chat
  /\ selectedNodeIds (fire_selection_created Select ev s) = ["a"; "b"]
  /\ selectedNodeIds (fire_selection_updated Select ev s) = ["a"; "b"].
Proof. repeat split. Qed.

(** ** Reconciliation *)

(** *** Numbers within the epsilons *)

Lemma close_enough : forall a b eps,
  a == b -> 0 <= eps -> Js.gt (Qabs (a - b)) eps = false.
Proof.
  intros a b eps E Heps; apply gt_false, Qabs_Qle_condition; split; lra.
Qed.


Lemma or_default_keeps : forall a d, ~ a == 0 -> Js.or_default a d = a.
Proof.
  intros a d H; unfold Js.or_default.
  destruct (Qeq_bool a 0) eqn:E; [|reflexivity].
  apply Qeq_bool_iff in E; contradiction.
Qed.




(** *** The object map and the canvas *)







(** *** The removal loop *)



(** *** The update loop *)


Lemma sync_node_objectMap : forall a st,
  objectMap (fst (sync_node a st)) = objectMap (fst st).
Proof.
  intros a [sf log]; unfold sync_node.
  destruct (existing_object sf (id a)) as [[r o]|].
  - destruct (needs_update o a); [|reflexivity].
    now destruct (url_changed o a && is_image a && negb (invalid_url (url a))).
  - now destruct (is_image a && negb (invalid_url (url a))).
Qed.






Lemma includes_cons : forall a arr v,
  Js.includes (a :: arr) v = String.eqb v a || Js.includes arr v.
Proof. reflexivity. Qed.

Lemma filter_filter : forall (A : Type) (p q : A -> bool) (l : list A),
  filter p (filter q l) = filter (fun a => q a && p a) l.
Proof.
  induction l as [|a l IH]; simpl; [reflexivity|].
  destruct (q a); simpl; [destruct (p a)|]; now rewrite IH.
Qed.

(** The removal loop over the entries [entries]: an entry of the map stays
    when its key is the id of a node or is not among the keys walked. *)
Lemma remove_loop_map : forall ids entries sf log,
  let st' := fold_left (remove_step ids) entries (sf, log) in
  objectMap (fst st')
  = filter (fun kv => Js.includes ids (fst kv)
                      || negb (Js.includes (map fst entries) (fst kv)))
           (objectMap sf)
  /\ snd st'
     = log ++ map Removed (filter (fun k => negb (Js.includes ids k)) (map fst entries)).
Proof.
  induction entries as [|[k r] entries IH]; intros sf log; cbn [fold_left].
  - simpl; split; [|now rewrite app_nil_r].
    symmetry; apply filter_all; intros kv _; apply orb_true_r.
  - assert (Hstep : remove_step ids (sf, log) (k, r)
                    = if Js.includes ids k then (sf, log)
                      else ({| canvasObjects :=
                                 filter (fun ro => negb (Nat.eqb (fst ro) r))
                                        (canvasObjects sf);
                               objectMap := map_delete (objectMap sf) k;
                               nextRef := nextRef sf;
                               loading := loading sf |},
                            log ++ [Removed k])) by reflexivity.
    rewrite Hstep; clear Hstep.
    destruct (Js.includes ids k) eqn:E.
    + destruct (IH sf log) as [H1 H2]; cbv zeta in H1, H2; rewrite H1, H2.
      cbn [map fst filter]; rewrite E; cbn [negb]; split; [|reflexivity].
      apply filter_ext_in; intros kv Hkv.
      rewrite includes_cons.
      destruct (String.eqb (fst kv) k) eqn:Ek; [|reflexivity].
      apply String.eqb_eq in Ek; rewrite Ek, E; reflexivity.
    + match goal with
      | |- context [fold_left _ entries (?sf1, ?log1)] =>
          destruct (IH sf1 log1) as [H1 H2]
      end.
      cbv zeta in H1, H2; rewrite H1, H2; cbn [objectMap].
      cbn [map fst filter]; rewrite E; cbn [negb map]; split.
      * unfold map_delete; rewrite filter_filter.
        apply filter_ext; intros kv; rewrite includes_cons.
        destruct (String.eqb (fst kv) k) eqn:Ek; cbn [negb andb orb]; [|reflexivity].
        apply String.eqb_eq in Ek; rewrite Ek, E; reflexivity.
      * now rewrite <- app_assoc.
Qed.

Lemma sync_node_log : forall a sf log k,
  In (Removed k) (snd (sync_node a (sf, log))) <-> In (Removed k) log.
Proof.
  intros a sf log k; unfold sync_node.
  destruct (existing_object sf (id a)) as [[r o]|].
  - destruct (needs_update o a); [|reflexivity].
    destruct (url_changed o a && is_image a && negb (invalid_url (url a)));
      cbn [snd]; rewrite in_app_iff; simpl; intuition discriminate.
  - destruct (is_image a && negb (invalid_url (url a))); [|reflexivity].
    cbn [snd]; rewrite in_app_iff; simpl; intuition discriminate.
Qed.

Lemma sync_loop_registry : forall l st k,
  let st' := fold_left (fun st n => sync_node n st) l st in
  objectMap (fst st') = objectMap (fst st)
  /\ (In (Removed k) (snd st') <-> In (Removed k) (snd st)).
Proof.
  induction l as [|a l IH]; intros st k; [split; reflexivity|].
  cbn [fold_left]; destruct (IH (sync_node a st) k) as [H1 H2].
  cbv zeta in *; rewrite H1, H2, sync_node_objectMap.
  split; [reflexivity|destruct st as [sf log]; apply sync_node_log].
Qed.

Lemma sync_registry : forall ns sf,
  objectMap (fst (sync ns sf))
  = filter (fun kv => Js.includes (map id ns) (fst kv)) (objectMap sf)
  /\ forall k, In (Removed k) (snd (sync ns sf))
               <-> In k (map fst (objectMap sf)) /\ ~ In k (map id ns).
Proof.
  intros ns sf; unfold sync.
  destruct (remove_loop_map (map id ns) (objectMap sf) sf []) as [H1 H2].
  cbv zeta in H1, H2.
  split.
  - destruct (sync_loop_registry ns (remove_stale ns (sf, [])) "") as [H _].
    cbv zeta in H; rewrite H; unfold remove_stale; cbn [fst].
    rewrite H1; apply filter_ext_in; intros kv Hkv.
    replace (Js.includes (map fst (objectMap sf)) (fst kv)) with true;
      [apply orb_false_r|].
    symmetry; apply includes_In; now apply in_map.
  - intros k.
    destruct (sync_loop_registry ns (remove_stale ns (sf, [])) k) as [_ H].
    cbv zeta in H; rewrite H; unfold remove_stale; cbn [fst].
    rewrite H2; cbn [app]; rewrite in_map_iff; split.
    + intros (k' & [= ->] & Hk); apply filter_In in Hk; destruct Hk as [Hk Hs].
      split; [exact Hk|]; apply includes_false; now apply negb_true_iff.
    + intros [Hk Hs]; exists k; split; [reflexivity|].
      apply filter_In; split; [exact Hk|]; now apply negb_true_iff, includes_false.
Qed.


















(** A slip beside the claim: for a fully transparent node the test
    [existingObj.opacity || 1] reads 1, off the node's opacity 0 by more
    than 0.01, so every pass transforms the drawable again, however often
    the effect runs. *)
Lemma transparent_node_is_transformed_again :
  let node := sample_image_node "n" "u" 0 in
  let loaded := fst (complete_load 0 (sample_loaded_image "u")
                       (fst (sync [node] empty_surface))) in
  let pass1 := sync [node] loaded in
  let pass2 := sync [node] (fst pass1) in
  let pass3 := sync [node] (fst pass2) in
  map fst (objectMap loaded) = ["n"]
  /\ loading loaded = []
  /\ snd pass1 = [Transformed "n"; SourceReloaded "n"]
  /\ snd pass2 = [Transformed "n"]
  /\ snd pass3 = [Transformed "n"].
Proof. vm_compute; repeat split; reflexivity. Qed.

(** ** Further properties of the store *)






(** Id uniqueness (specification P1): along any sequence of [addNode] and
    [duplicateSelected] calls whose [nanoid()] answers are fresh, the node
    ids stay pairwise distinct. *)
Theorem ids_stay_unique : forall (actions : list (Env * Action)) (s : Store),
  NoDup (map id (nodes s)) ->
  fresh_run actions s ->
  exists s', run actions s = Ok s' /\ NoDup (map id (nodes s')).
Proof.
  induction actions as [|[e a] rest IH]; intros s Hnd Hfresh; simpl; [eauto|].
  destruct a; simpl in Hfresh; try contradiction; destruct Hfresh as [[Hnew Hnot] Hrest].
  - apply IH; [|exact Hrest].
    unfold addNode; rewrite saveHistory_nodes; simpl nodes.
    rewrite map_app; simpl.
    apply NoDup_app; [exact Hnd|repeat constructor; intros []|].
    intros i Hi [<-|[]]; apply (Hnot 0%nat); [lia|exact Hi].
  - apply IH; [|exact Hrest].
    unfold duplicateSelected; rewrite saveHistory_nodes; simpl nodes.
    rewrite map_app.
    assert (Hids : map id (map (fun '(k, node) =>
                     duplicate_of node (nanoid e k) (Js.of_nat (length (nodes s) + k)))
                     (indexed (selectedNodes s)))
                   = map (nanoid e) (seq 0 (length (selectedNodes s)))).
    { unfold indexed; rewrite <- (indexed_from_fst _ (selectedNodes s) 0), !map_map.
      apply map_ext; intros [k n]; reflexivity. }
    rewrite Hids; apply NoDup_app; [exact Hnd|exact Hnew|].
    intros i Hi Hi'; apply in_map_iff in Hi'; destruct Hi' as (k & <- & Hk).
    apply in_seq in Hk; apply (Hnot k); [lia|exact Hi].
Qed.

Lemma ids_stay_unique_witness :
  exists s',
    run [(sample_env, DuplicateSelected)]
        (sample_store [sample_node "a" 10 10 50 50; sample_node "b" 0 0 5 5] ["a"; "b"])
    = Ok s'
    /\ NoDup (map id (nodes s')).
Proof.
  apply (ids_stay_unique [(sample_env, DuplicateSelected)]
           (sample_store [sample_node "a" 10 10 50 50; sample_node "b" 0 0 5 5]
                         ["a"; "b"])).
  - repeat constructor; simpl; intuition discriminate.
  - simpl; split; [split|exact I].
    + repeat constructor; simpl; intuition discriminate.
    + intros k Hk; change (k < 2)%nat in Hk.
      destruct k as [|[|k]]; [| |lia]; simpl; intuition discriminate.
Defined.

(** ** Undo and redo along the history *)

(** Undo reverts the last mutation.  In a state reached from the initial
    store by canvas actions and project loads, in which the entry under
    the history index holds the current nodes, after an action that saves
    history: when the history was not empty, [undo] brings back the node
    collection from before the action and empties the selection; when it
    was empty (nothing was captured before the first mutation), [undo]
    leaves the store as the action left it, so the first mutation cannot be
    undone. *)
Theorem undo_reverts_last_action : forall ops e a s,
  run_operations ops initial = Ok s ->
  history_synced s ->
  saves_history a s = true ->
  exists s',
    step e a s = Ok s'
    /\ (history s <> [] ->
        exists s1, undo s' = Ok s1 /\ nodes s1 = nodes s /\ selectedNodeIds s1 = [])
    /\ (history s = [] -> undo s' = Ok s').
Proof.
  intros ops e a s Hrun Hsy Hs.
  pose proof (operations_reach_ok ops s Hrun) as Hok.
  destruct (step_saves e a s Hs) as (s0 & -> & Hh & Hi).
  eexists; split; [reflexivity|].
  assert (Hok0 : history_ok s0) by (apply (history_ok_ext s); auto).
  split.
  - intros Hne; rewrite <- Hh in Hne.
    destruct (saveHistory_prev e s0 Hok0 Hne) as (Hprev & Hpos & _).
    unfold undo.
    destruct (Z.ltb_spec 0 (historyIndex (saveHistory e s0))); [|lia].
    destruct (Js.index (history s0) (historyIndex s0)) as [entry|] eqn:E.
    + rewrite (restore_some _ _ entry) by (rewrite Hprev; reflexivity).
      eexists; split; [reflexivity|split; [|reflexivity]].
      simpl; apply Hsy; now rewrite <- Hh, <- Hi.
    + exfalso; destruct Hok0 as (_ & _ & Hr); specialize (Hr Hne).
      unfold Js.index in E.
      destruct (Z.ltb_spec (historyIndex s0) 0); [lia|].
      apply nth_error_None in E; lia.
  - intros Hnil.
    assert (Hi0 : historyIndex (saveHistory e s0) = 0%Z).
    { rewrite saveHistory_index, saveHistory_history; unfold captured.
      rewrite Hh, Hnil; unfold Js.slice0; rewrite firstn_nil; reflexivity. }
    unfold undo; rewrite Hi0; reflexivity.
Qed.

Lemma undo_reverts_last_action_witness :
  let s := addNode sample_env (sample_node "a" 1 2 3 4)
             (loadProject (Some [sample_node "p" 5 5 20 20]) initial) in
  exists s',
    step sample_env (DeleteNode "new0") s = Ok s'
    /\ nodes s' = [sample_node "p" 5 5 20 20]
    /\ exists s1, undo s' = Ok s1 /\ nodes s1 = nodes s.
Proof.
  intros s.
  destruct (undo_reverts_last_action
              [LoadProject (Some [sample_node "p" 5 5 20 20]);
               Act sample_env (AddNode (sample_node "a" 1 2 3 4))] sample_env
              (DeleteNode "new0") s)
    as (s' & Hstep & Hundo & _);
    [reflexivity|apply saveHistory_synced|reflexivity|].
  exists s'; split; [exact Hstep|].
  split.
  - injection Hstep as <-; reflexivity.
  - destruct Hundo as (s1 & H1 & H2 & _); [discriminate|].
    exists s1; now split.
Defined.

Lemma undo_many : forall k s,
  history_ok s -> (Z.of_nat k <= historyIndex s)%Z ->
  exists s1, repeat_action undo k s = Ok s1
             /\ history s1 = history s
             /\ historyIndex s1 = (historyIndex s - Z.of_nat k)%Z
             /\ history_ok s1.
Proof.
  induction k as [|k IH]; intros s Hok Hk.
  - exists s; simpl; split; [reflexivity|split; [reflexivity|split; [lia|exact Hok]]].
  - pose proof Hok as (_ & Hnil & Hne).
    assert (Hh : history s <> []) by (intros E; specialize (Hnil E); lia).
    specialize (Hne Hh).
    destruct (restore_ok s (historyIndex s - 1) Hok) as (s' & E & Hok' & Hh' & Hi' & _);
      [lia|].
    simpl; unfold undo at 1.
    destruct (Z.ltb_spec 0 (historyIndex s)); [|lia].
    rewrite E; simpl.
    destruct (IH s' Hok') as (s1 & E1 & Hh1 & Hi1 & Hok1); [lia|].
    exists s1; rewrite E1, Hh1, Hi1, Hh', Hi'.
    split; [reflexivity|split; [reflexivity|split; [lia|exact Hok1]]].
Qed.

Lemma redo_many : forall k s,
  history_ok s ->
  (historyIndex s + Z.of_nat k <= Z.of_nat (length (history s)) - 1)%Z ->
  exists s2, repeat_action redo k s = Ok s2
             /\ history s2 = history s
             /\ historyIndex s2 = (historyIndex s + Z.of_nat k)%Z
             /\ ((0 < k)%nat ->
                 exists entry, Js.index (history s) (historyIndex s2) = Some entry
                               /\ nodes s2 = hs_nodes entry).
Proof.
  induction k as [|k IH]; intros s Hok Hk.
  - exists s; simpl; repeat split; [lia|intros H; lia].
  - pose proof Hok as (_ & Hnil & Hne).
    assert (Hh : history s <> []).
    { intros E; specialize (Hnil E); rewrite E in Hk; simpl in Hk; lia. }
    specialize (Hne Hh).
    destruct (restore_ok s (historyIndex s + 1) Hok)
      as (s' & E & Hok' & Hh' & Hi' & _ & entry & He & Hn); [lia|].
    simpl; unfold redo at 1.
    destruct (Z.ltb_spec (historyIndex s) (Z.of_nat (length (history s)) - 1)); [|lia].
    rewrite E; simpl.
    destruct (IH s' Hok') as (s2 & E2 & Hh2 & Hi2 & Hent); [rewrite Hh', Hi'; lia|].
    exists s2; rewrite E2.
    split; [reflexivity|split; [congruence|split; [lia|intros _]]].
    destruct k as [|k].
    + simpl in E2; injection E2 as <-.
      exists entry; rewrite Hi'; now split.
    + destruct Hent as (entry2 & He2 & Hn2); [lia|].
      exists entry2; rewrite <- Hh'; now split.
Qed.

(** Multi-step undo and redo.  In a state reached from the initial store
    by canvas actions and project loads, in which the entry under the
    history index holds the current nodes, [k] undos in a row (no more than
    the index allows) return and move the index down by [k]; [k] redos
    after them return and bring back the node collection, the history and
    the index. *)
Theorem undo_redo_many : forall ops k s,
  run_operations ops initial = Ok s ->
  history_synced s ->
  (Z.of_nat k <= historyIndex s)%Z ->
  exists s1 s2,
    repeat_action undo k s = Ok s1
    /\ historyIndex s1 = (historyIndex s - Z.of_nat k)%Z
    /\ repeat_action redo k s1 = Ok s2
    /\ nodes s2 = nodes s
    /\ history s2 = history s
    /\ historyIndex s2 = historyIndex s.
Proof.
  intros ops k s Hrun Hsy Hk.
  pose proof (operations_reach_ok ops s Hrun) as Hok.
  destruct (undo_many k s Hok Hk) as (s1 & E1 & Hh1 & Hi1 & Hok1).
  pose proof Hok as (_ & Hnil & Hne).
  destruct (redo_many k s1 Hok1) as (s2 & E2 & Hh2 & Hi2 & Hent).
  { rewrite Hh1, Hi1.
    destruct (history s) as [|h0 hs] eqn:Eh; [specialize (Hnil eq_refl); simpl; lia|].
    assert (H : h0 :: hs <> []) by discriminate; specialize (Hne H); lia. }
  exists s1, s2; rewrite E1, E2, Hh2, Hi2, Hh1, Hi1.
  repeat split; try lia.
  destruct k as [|k].
  - simpl in E1, E2; injection E1 as <-; now injection E2 as <-.
  - destruct Hent as (entry & He & Hn); [lia|].
    rewrite Hn; apply Hsy.
    rewrite <- He, Hh1, Hi2, Hi1; f_equal; lia.
Qed.

Lemma undo_redo_many_witness :
  let s := addNode sample_env (sample_node "c" 0 0 1 1)
             (addNode sample_env (sample_node "b" 0 0 1 1)
                (addNode sample_env (sample_node "a" 0 0 1 1)
                   (createProject (Some []) initial))) in
  exists s1 s2,
    repeat_action undo 2 s = Ok s1
    /\ historyIndex s1 = (historyIndex s - 2)%Z
    /\ repeat_action redo 2 s1 = Ok s2
    /\ nodes s2 = nodes s
    /\ history s2 = history s
    /\ historyIndex s2 = historyIndex s.
Proof.
  intros s.
  apply (undo_redo_many
           [CreateProject (Some []);
            Act sample_env (AddNode (sample_node "a" 0 0 1 1));
            Act sample_env (AddNode (sample_node "b" 0 0 1 1));
            Act sample_env (AddNode (sample_node "c" 0 0 1 1))] 2 s).
  - reflexivity.
  - apply saveHistory_synced.
  - vm_compute; discriminate.
Defined.

(** A mutation discards the redo tail.  In a state reached from the
    initial store, after an action that saves history nothing is left to
    redo ([redo] returns the store as it is), and the history holds the
    entries up to the old index plus the new one, capped at 50, however
    many entries lay above the index before. *)
Theorem mutation_discards_redo_tail : forall actions e a s,
  run actions initial = Ok s ->
  saves_history a s = true ->
  exists s',
    step e a s = Ok s'
    /\ redo s' = Ok s'
    /\ length (history s') = Nat.min (Z.to_nat (historyIndex s + 2)) 50.
Proof.
  intros actions e a s Hrun Hs.
  destruct (run_reachable actions initial s initial_history_ok initial_synced Hrun)
    as [Hok _].
  destruct (step_saves e a s Hs) as (s0 & -> & Hh & Hi).
  assert (Hok0 : history_ok s0) by (apply (history_ok_ext s); auto).
  eexists; split; [reflexivity|split].
  - unfold redo; rewrite saveHistory_index.
    destruct (Z.ltb_spec (Z.of_nat (length (history (saveHistory e s0))) - 1)
                (Z.of_nat (length (history (saveHistory e s0))) - 1)); [lia|reflexivity].
  - rewrite <- Hi.
    destruct (history s0) as [|h0 hs] eqn:Eh.
    + destruct Hok0 as (_ & Hnil & _); rewrite Eh in Hnil.
      rewrite (Hnil eq_refl), saveHistory_history; unfold captured.
      rewrite Eh; unfold Js.slice0; rewrite firstn_nil; reflexivity.
    + assert (Hne : history s0 <> []) by (rewrite Eh; discriminate).
      destruct (saveHistory_prev e s0 Hok0 Hne) as (_ & _ & Hl).
      rewrite Hl; destruct Hok0 as (_ & _ & Hr); specialize (Hr Hne).
      f_equal; lia.
Qed.

Lemma mutation_discards_redo_tail_witness :
  exists s0 s',
    undo (addNode sample_env (sample_node "b" 0 0 1 1)
            (addNode sample_env (sample_node "a" 0 0 1 1) initial)) = Ok s0
    /\ length (history s0) = 2%nat /\ historyIndex s0 = 0%Z
    /\ step sample_env (UpdateNode "new0" no_updates) s0 = Ok s'
    /\ redo s' = Ok s'
    /\ length (history s') = 2%nat.
Proof.
  eexists; destruct (mutation_discards_redo_tail
              [(sample_env, AddNode (sample_node "a" 0 0 1 1));
               (sample_env, AddNode (sample_node "b" 0 0 1 1));
               (sample_env, Undo)] sample_env (UpdateNode "new0" no_updates)
              _ eq_refl eq_refl) as (s' & H1 & H2 & H3).
  exists s'; repeat split; try reflexivity; assumption.
Defined.

(** ** The data-model invariants along any run *)

Lemma assign_ids : forall (l : list CanvasNode) i c v,
  nth_error l i = Some c -> id v = id c -> map id (Js.assign l i v) = map id l.
Proof.
  induction l as [|a l IH]; intros [|i] c v Hn Hv; simpl in *; try discriminate.
  - injection Hn as ->; now rewrite Hv.
  - f_equal; now apply (IH i c).
Qed.

Lemma place_ids : forall upd node nx ny,
  map id (place upd node nx ny) = map id upd.
Proof.
  intros upd node nx ny; unfold place.
  destruct (Js.findIndex _ upd) as [i|]; [|reflexivity].
  destruct (nth_error upd i) as [c|] eqn:E; [|reflexivity].
  now apply (assign_ids upd i c).
Qed.

Lemma align_row_ids : forall selected upd,
  map id (align_row selected upd) = map id upd.
Proof.
  intros selected upd; unfold align_row.
  destruct (Js.sort _ selected) as [|first rest] eqn:E; [reflexivity|].
  cbv zeta.
  generalize (fold_left (fun sum n => sum + y n) (first :: rest) 0
              / Js.of_nat (length (first :: rest))).
  generalize (x first); generalize (first :: rest); clear.
  intros walk; revert upd.
  induction walk as [|n walk IH]; intros upd c avg; [reflexivity|].
  cbn [fold_left]; rewrite IH; apply place_ids.
Qed.

Lemma align_column_ids : forall selected upd,
  map id (align_column selected upd) = map id upd.
Proof.
  intros selected upd; unfold align_column.
  destruct (Js.sort _ selected) as [|first rest] eqn:E; [reflexivity|].
  cbv zeta.
  generalize (fold_left (fun sum n => sum + x n) (first :: rest) 0
              / Js.of_nat (length (first :: rest))).
  generalize (y first); generalize (first :: rest); clear.
  intros walk; revert upd.
  induction walk as [|n walk IH]; intros upd c avg; [reflexivity|].
  cbn [fold_left]; rewrite IH; apply place_ids.
Qed.

Lemma align_grid_ids : forall selected upd,
  map id (align_grid selected upd) = map id upd.
Proof.
  intros selected upd; unfold align_grid.
  destruct selected as [|first rest] eqn:E; [reflexivity|].
  rewrite <- E; cbv zeta.
  generalize (Js.ceil_sqrt (length selected)), (Js.Math_max (map width selected)),
    (Js.Math_max (map height selected)), (x first), (y first).
  intros numCols maxW maxH sx sy.
  generalize (indexed selected); clear.
  intros items; revert upd.
  induction items as [|[k n] items IH]; intros upd; [reflexivity|].
  cbn [fold_left]; rewrite IH; apply place_ids.
Qed.

Lemma captured_Forall : forall (P : HistoryState -> Prop) e s ns,
  Forall P (history s) -> P {| hs_nodes := ns; timestamp := now e |} ->
  Forall P (captured e s ns).
Proof.
  intros P e s ns Hh Hn; unfold captured, Js.slice0; cbv zeta.
  set (k := Z.to_nat _).
  assert (Hall : Forall P (firstn k (history s) ++ [ {| hs_nodes := ns; timestamp := now e |} ])).
  { apply Forall_app; split; [|now constructor].
    rewrite <- (firstn_skipn k (history s)) in Hh.
    now apply Forall_app in Hh. }
  destruct (50 <? _)%nat; [|exact Hall].
  destruct (firstn k (history s) ++ _); [constructor|now inversion Hall].
Qed.

Lemma restore_unique_ids : forall s i s',
  Forall (fun entry => NoDup (map id (hs_nodes entry))) (history s) ->
  restore s i = Ok s' ->
  NoDup (map id (nodes s')) /\ selectedNodeIds s' = [] /\ history s' = history s.
Proof.
  intros s i s' Hall; unfold restore.
  destruct (Js.index (history s) i) as [entry|] eqn:E; [|discriminate].
  intros [= <-]; simpl; rewrite json_clone_id.
  split; [|split; reflexivity].
  unfold Js.index in E; destruct (i <? 0)%Z; [discriminate|].
  apply nth_error_In in E.
  rewrite Forall_forall in Hall; now apply Hall.
Qed.

Lemma saveHistory_unique_ids : forall e s,
  NoDup (map id (nodes s)) ->
  Forall (fun entry => NoDup (map id (hs_nodes entry))) (history s) ->
  Forall (fun entry => NoDup (map id (hs_nodes entry))) (history (saveHistory e s)).
Proof.
  intros e s Hnd Hall; rewrite saveHistory_history.
  now apply captured_Forall.
Qed.

Lemma duplicate_ids : forall e s,
  map id (map (fun '(k, node) =>
                 duplicate_of node (nanoid e k) (Js.of_nat (length (nodes s) + k)))
              (indexed (selectedNodes s)))
  = map (nanoid e) (seq 0 (length (selectedNodes s))).
Proof.
  intros e s.
  unfold indexed; rewrite <- (indexed_from_fst _ (selectedNodes s) 0), !map_map.
  apply map_ext; intros [k n]; reflexivity.
Qed.

Lemma step_keeps_ids : forall e a s s',
  well_formed s -> good_action e a s -> step e a s = Ok s' ->
  NoDup (map id (nodes s'))
  /\ selection_valid s'
  /\ Forall (fun entry => NoDup (map id (hs_nodes entry))) (history s').
Proof.
  intros e a s s' (Hnd & Hv & Hok & Hall) Hgood Hstep.
  assert (Hsave : forall s0,
            history s0 = history s ->
            NoDup (map id (nodes s0)) -> selection_valid s0 ->
            NoDup (map id (nodes (saveHistory e s0)))
            /\ selection_valid (saveHistory e s0)
            /\ Forall (fun entry => NoDup (map id (hs_nodes entry)))
                      (history (saveHistory e s0))).
  { intros s0 Hh Hn0 Hv0; split; [exact Hn0|split; [exact Hv0|]].
    apply saveHistory_unique_ids; [exact Hn0|now rewrite Hh]. }
  destruct a; simpl in Hstep, Hgood.
  - (* addNode *)
    injection Hstep as <-; destruct Hgood as [_ Hnot].
    apply Hsave; [reflexivity| |].
    + simpl nodes; rewrite map_app; simpl.
      apply NoDup_app; [exact Hnd|repeat constructor; intros []|].
      intros i Hi [<-|[]]; apply (Hnot 0%nat); [lia|exact Hi].
    + intros i Hi; simpl nodes; rewrite map_app, in_app_iff; left; now apply Hv.
  - (* updateNode *)
    injection Hstep as <-.
    assert (Hids : map id (map (fun node => if String.eqb (id node) nid
                                            then merge node updates else node) (nodes s))
                   = map id (nodes s)).
    { rewrite map_map; apply map_ext; intros n.
      destruct (String.eqb (id n) nid); [|reflexivity].
      unfold merge; simpl; now rewrite Hgood. }
    apply Hsave; [reflexivity| |]; unfold selection_valid; simpl nodes;
      rewrite Hids; assumption.
  - (* deleteNode *)
    injection Hstep as <-.
    apply Hsave; [reflexivity|now apply NoDup_map_filter|].
    intros i Hi; simpl in Hi |- *.
    apply filter_In in Hi; destruct Hi as [Hi Hne].
    apply Hv in Hi; apply in_map_iff in Hi; destruct Hi as (n & <- & Hn).
    apply in_map, filter_In; split; [exact Hn|exact Hne].
  - (* deleteSelectedNodes *)
    injection Hstep as <-.
    apply Hsave; [reflexivity|now apply NoDup_map_filter|intros i []].
  - (* selectNode *)
    injection Hstep as <-.
    assert (Hn : nodes (selectNode nid multi s) = nodes s)
      by (unfold selectNode; destruct multi; reflexivity).
    assert (Hh : history (selectNode nid multi s) = history s)
      by (unfold selectNode; destruct multi; reflexivity).
    unfold selection_valid; rewrite Hn, Hh.
    split; [exact Hnd|split; [|exact Hall]].
    intros i; unfold selectNode; destruct multi; simpl.
    + destruct (Js.includes (selectedNodeIds s) nid).
      * intros Hi; apply filter_In in Hi; now apply Hv.
      * rewrite in_app_iff; intros [Hi|[<-|[]]]; [now apply Hv|exact Hgood].
    + intros [<-|[]]; exact Hgood.
  - (* selectNodes *)
    injection Hstep as <-; split; [exact Hnd|split; [exact Hgood|exact Hall]].
  - (* clearSelection *)
    injection Hstep as <-; split; [exact Hnd|split; [intros i []|exact Hall]].
  - (* duplicateSelected *)
    injection Hstep as <-; destruct Hgood as [Hnew Hnot].
    unfold duplicateSelected; cbv zeta.
    apply Hsave; [reflexivity| |].
    + simpl nodes; rewrite map_app, duplicate_ids.
      apply NoDup_app; [exact Hnd|exact Hnew|].
      intros i Hi Hi'; apply in_map_iff in Hi'; destruct Hi' as (k & <- & Hk).
      apply in_seq in Hk; apply (Hnot k); [lia|exact Hi].
    + intros i Hi; simpl in Hi |- *.
      rewrite map_app, in_app_iff; now right.
  - (* alignNodes *)
    injection Hstep as <-; unfold alignNodes; cbv zeta.
    destruct (length (selectedNodes s) <? 2)%nat; [now repeat split|].
    assert (Hids : map id match alignment with
                          | Row => align_row (selectedNodes s) (nodes s)
                          | Column => align_column (selectedNodes s) (nodes s)
                          | Grid => align_grid (selectedNodes s) (nodes s)
                          end = map id (nodes s)).
    { destruct alignment;
        [apply align_row_ids|apply align_column_ids|apply align_grid_ids]. }
    apply Hsave; [reflexivity| |]; unfold selection_valid; simpl nodes;
      rewrite Hids; assumption.
  - (* setCanvasMode *)
    injection Hstep as <-; now repeat split.
  - (* undo *)
    unfold undo in Hstep; destruct (0 <? historyIndex s)%Z.
    + destruct (restore_unique_ids _ _ _ Hall Hstep) as (H1 & H2 & H3).
      split; [exact H1|split; [|now rewrite H3]].
      intros i; rewrite H2; intros [].
    + injection Hstep as <-; now repeat split.
  - (* redo *)
    unfold redo in Hstep; destruct (historyIndex s <? _)%Z.
    + destruct (restore_unique_ids _ _ _ Hall Hstep) as (H1 & H2 & H3).
      split; [exact H1|split; [|now rewrite H3]].
      intros i; rewrite H2; intros [].
    + injection Hstep as <-; now repeat split.
Qed.

Lemma initial_well_formed : well_formed initial.
Proof.
  split; [constructor|split; [intros i []|split; [apply initial_history_ok|constructor]]].
Qed.

(** The data-model invariants hold along any run.  From a well-formed
    store (unique node ids, selected ids that reference nodes, history
    within its bounds, unique ids in every snapshot), any sequence of the
    twelve store actions returns and leaves a well-formed store, as long as
    [nanoid()] answers with fresh ids, [updateNode] is not used to rewrite
    an id, and [selectNode] and [selectNodes] are handed ids of existing
    nodes.  Undo and redo are covered: a restored snapshot has unique ids,
    and the selection is emptied. *)
Theorem well_formed_run : forall (actions : list (Env * Action)) (s : Store),
  well_formed s ->
  good_run actions s ->
  exists s', run actions s = Ok s' /\ well_formed s'.
Proof.
  induction actions as [|[e a] rest IH]; intros s Hwf Hgood; simpl; [eauto|].
  destruct Hgood as [Ha Hrest].
  pose proof Hwf as (_ & _ & Hok & _).
  destruct (step_history_ok e a s Hok) as (s1 & E & Hok1).
  destruct (step_keeps_ids e a s s1 Hwf Ha E) as (H1 & H2 & H3).
  rewrite E; simpl; apply IH; [|now apply Hrest].
  split; [exact H1|split; [exact H2|split; [exact Hok1|exact H3]]].
Qed.

Lemma well_formed_run_witness :
  exists s',
    run [(sample_env, AddNode (sample_node "" 0 0 10 10));
         (sample_env, SelectNode "new0" false);
         ({| now := 1%Z; nanoid := fun _ => "copy" |}, DuplicateSelected);
         (sample_env, AlignNodes Row);
         (sample_env, Undo)] initial = Ok s'
    /\ well_formed s'.
Proof.
  apply (well_formed_run
           [(sample_env, AddNode (sample_node "" 0 0 10 10));
            (sample_env, SelectNode "new0" false);
            ({| now := 1%Z; nanoid := fun _ => "copy" |}, DuplicateSelected);
            (sample_env, AlignNodes Row);
            (sample_env, Undo)] initial initial_well_formed).
  simpl; split.
  - split; [repeat constructor; simpl; tauto|intros k Hk [ ]].
  - intros s1 [= <-]; split; [left; reflexivity|].
    intros s2 [= <-]; split.
    + split; [repeat constructor; simpl; tauto|].
      intros k Hk; change (k < 1)%nat in Hk.
      destruct k; [|lia]; simpl; intuition discriminate.
    + intros s3 [= <-]; split; [exact I|].
      intros s4 [= <-]; split; [exact I|].
      intros s5 _; exact I.
Defined.

(** ** Insertions and the deletions that take them back *)

Lemma filter_other_ids : forall (nid : string) (l : list CanvasNode),
  ~ In nid (map id l) ->
  filter (fun node => negb (String.eqb (id node) nid)) l = l.
Proof.
  intros nid l Hnot; apply filter_all; intros a Ha.
  destruct (String.eqb (id a) nid) eqn:E; [|reflexivity].
  exfalso; apply Hnot; apply String.eqb_eq in E; rewrite <- E; now apply in_map.
Qed.

Lemma filter_other_strings : forall (nid : string) (l : list string),
  ~ In nid l -> filter (fun sel => negb (String.eqb sel nid)) l = l.
Proof.
  intros nid l Hnot; apply filter_all; intros a Ha.
  destruct (String.eqb a nid) eqn:E; [|reflexivity].
  exfalso; apply Hnot; apply String.eqb_eq in E; now rewrite <- E.
Qed.

(** Adding a node and deleting it again.  When [nanoid()] answers with an
    id that no node carries and that is not selected, [deleteNode] of that
    id after [addNode] brings back the node collection and the selection
    (the history has grown by the two captures). *)
Theorem add_then_delete_restores : forall e e' node s,
  ~ In (nanoid e 0) (map id (nodes s)) ->
  ~ In (nanoid e 0) (selectedNodeIds s) ->
  nodes (deleteNode e' (nanoid e 0) (addNode e node s)) = nodes s
  /\ selectedNodeIds (deleteNode e' (nanoid e 0) (addNode e node s)) = selectedNodeIds s.
Proof.
  intros e e' node s Hn Hs; unfold deleteNode, addNode.
  rewrite !saveHistory_nodes, !saveHistory_selection; simpl.
  split; [|now apply filter_other_strings].
  rewrite filter_app, filter_other_ids by exact Hn; simpl.
  rewrite String.eqb_refl; simpl; apply app_nil_r.
Qed.

Lemma add_then_delete_restores_witness :
  nodes (deleteNode sample_env "new0"
           (addNode sample_env (sample_node "" 1 2 3 4)
              (sample_store [sample_node "a" 0 0 5 5] ["a"])))
  = [sample_node "a" 0 0 5 5]
  /\ selectedNodeIds (deleteNode sample_env "new0"
           (addNode sample_env (sample_node "" 1 2 3 4)
              (sample_store [sample_node "a" 0 0 5 5] ["a"])))
     = ["a"].
Proof.
  apply (add_then_delete_restores sample_env sample_env (sample_node "" 1 2 3 4)
           (sample_store [sample_node "a" 0 0 5 5] ["a"]));
    simpl; intuition discriminate.
Defined.

(** Duplicating the selection and deleting the selection again.  After
    [duplicateSelected] the selection is the copies; when the ids of the
    copies are new to the node collection, [deleteSelectedNodes] removes
    exactly the copies: the node collection is back, and nothing is
    selected. *)
Theorem duplicate_then_delete_restores : forall e e' s,
  (forall k, (k < length (selectedNodes s))%nat ->
             ~ In (nanoid e k) (map id (nodes s))) ->
  nodes (deleteSelectedNodes e' (duplicateSelected e s)) = nodes s
  /\ selectedNodeIds (deleteSelectedNodes e' (duplicateSelected e s)) = [].
Proof.
  intros e e' s Hfresh.
  set (newNodes := map (fun '(k, node) =>
                     duplicate_of node (nanoid e k) (Js.of_nat (length (nodes s) + k)))
                     (indexed (selectedNodes s))).
  assert (Hn : nodes (duplicateSelected e s) = nodes s ++ newNodes) by reflexivity.
  assert (Hs : selectedNodeIds (duplicateSelected e s) = map id newNodes) by reflexivity.
  unfold deleteSelectedNodes.
  rewrite saveHistory_nodes, saveHistory_selection.
  cbn [nodes selectedNodeIds set_nodes_selection].
  split; [|reflexivity].
  rewrite Hn, Hs; unfold newNodes.
  rewrite (duplicate_ids e s), filter_app.
  set (ids := map (nanoid e) (seq 0 (length (selectedNodes s)))).
  rewrite (filter_all _ _ (nodes s)).
  - rewrite filter_none; [apply app_nil_r|].
    intros a Ha; apply negb_false_iff, includes_In.
    unfold ids; rewrite <- (duplicate_ids e s); now apply in_map.
  - intros a Ha; apply negb_true_iff, includes_false.
    intros Hin; unfold ids in Hin; apply in_map_iff in Hin.
    destruct Hin as (k & E & Hk); apply in_seq in Hk.
    apply (Hfresh k); [lia|]; rewrite E; now apply in_map.
Qed.

Lemma duplicate_then_delete_restores_witness :
  nodes (deleteSelectedNodes sample_env
           (duplicateSelected sample_env
              (sample_store [sample_node "a" 10 10 50 50; sample_node "b" 0 0 5 5]
                            ["b"; "a"])))
  = [sample_node "a" 10 10 50 50; sample_node "b" 0 0 5 5]
  /\ selectedNodeIds (deleteSelectedNodes sample_env
           (duplicateSelected sample_env
              (sample_store [sample_node "a" 10 10 50 50; sample_node "b" 0 0 5 5]
                            ["b"; "a"])))
     = [].
Proof.
  apply (duplicate_then_delete_restores sample_env sample_env
           (sample_store [sample_node "a" 10 10 50 50; sample_node "b" 0 0 5 5]
                         ["b"; "a"])).
  intros k Hk; change (k < 2)%nat in Hk.
  destruct k as [|[|k]]; [| |lia]; simpl; intuition discriminate.
Defined.

(** ** Selecting with and without the modifier key *)

(** [selectNode] as a toggle.  On a selection without repeated ids, the
    new selection has no repeated ids either; the id handed in is selected
    afterwards exactly when the call was a plain one or the id was not
    selected before; and any other id is selected afterwards exactly when
    the call was a multi-select one and the id was selected before.  The
    nodes are left alone. *)
Theorem selectNode_toggles : forall nid multi s,
  NoDup (selectedNodeIds s) ->
  NoDup (selectedNodeIds (selectNode nid multi s))
  /\ (In nid (selectedNodeIds (selectNode nid multi s))
      <-> multi = false \/ ~ In nid (selectedNodeIds s))
  /\ (forall i, i <> nid ->
        (In i (selectedNodeIds (selectNode nid multi s))
         <-> multi = true /\ In i (selectedNodeIds s)))
  /\ nodes (selectNode nid multi s) = nodes s.
Proof.
  intros nid multi s Hnd; unfold selectNode; destruct multi; simpl.
  - destruct (Js.includes (selectedNodeIds s) nid) eqn:E.
    + apply includes_In in E.
      split; [now apply NoDup_filter|split; [|split; [|reflexivity]]].
      * rewrite filter_In, String.eqb_refl; simpl; split;
          [intros [_ H]; discriminate|intros [H|H]; [discriminate|contradiction]].
      * intros i Hi; rewrite filter_In; split; [intros [H _]; now split|].
        intros [_ H]; split; [exact H|].
        apply negb_true_iff, String.eqb_neq; exact Hi.
    + apply includes_false in E.
      split; [|split; [|split; [|reflexivity]]].
      * apply NoDup_app; [exact Hnd|repeat constructor; intros []|].
        intros i Hi [<-|[]]; contradiction.
      * rewrite in_app_iff; simpl; split; [intros _; now right|intros _; right; now left].
      * intros i Hi; rewrite in_app_iff; simpl; split.
        -- intros [H|[H|[]]]; [now split|congruence].
        -- intros [_ H]; now left.
  - split; [repeat constructor; intros []|split; [|split; [|reflexivity]]].
    + split; [intros _; now left|intros _; now left].
    + intros i Hi; split; [intros [H|[]]; congruence|intros [H _]; discriminate].
Qed.

Lemma selectNode_toggles_witness :
  selectedNodeIds (selectNode "a" true (sample_store [sample_node "a" 0 0 1 1] ["a"; "b"]))
  = ["b"]
  /\ NoDup (selectedNodeIds
              (selectNode "a" true (sample_store [sample_node "a" 0 0 1 1] ["a"; "b"]))).
Proof.
  split; [reflexivity|].
  apply (selectNode_toggles "a" true (sample_store [sample_node "a" 0 0 1 1] ["a"; "b"])).
  repeat constructor; simpl; intuition discriminate.
Defined.

(** ** Writing a modified drawable back *)

(** After ['object:modified'] has written a drawable back, the node is in
    step with the drawable on position, size and rotation: for a drawable
    with a non-zero natural size, the next reconciliation pass asks for an
    update of that node only if the opacity or the content reference are
    out of step (which the handler does not write). *)
Theorem modified_object_is_in_step : forall e obj nid s n',
  data_id obj = Some nid -> nid <> "" ->
  ~ fo_width obj == 0 -> ~ fo_height obj == 0 ->
  In n' (nodes (on_object_modified e (Some obj) s)) -> id n' = nid ->
  Qabs (Js.or_default (fo_opacity obj) 1 - opacity n') <= 1 # 100 ->
  url_changed obj n' = false ->
  needs_update obj n' = false.
Proof.
  intros e obj nid s n' Hd Hne Hw Hh Hin Hid Hop Hurl.
  unfold on_object_modified in Hin; rewrite Hd in Hin.
  apply String.eqb_neq in Hne; rewrite Hne in Hin.
  unfold updateNode in Hin; rewrite saveHistory_nodes in Hin; simpl in Hin.
  apply in_map_iff in Hin; destruct Hin as (n & E & Hn).
  assert (Hm : n' = merge n (modified_updates obj)).
  { destruct (String.eqb (id n) nid) eqn:En; [now symmetry|].
    apply String.eqb_neq in En; congruence. }
  clear E; subst n'.
  unfold needs_update; cbv zeta.
  cbn [merge modified_updates x y width height rotation over
       p_x p_y p_width p_height p_rotation].
  rewrite !(or_default_keeps _ 1 Hw), !(or_default_keeps _ 0 Hw),
    !(or_default_keeps _ 1 Hh), !(or_default_keeps _ 0 Hh).
  rewrite !close_enough by (reflexivity || lra).
  cbn [orb]; rewrite Hurl, orb_false_r.
  now apply gt_false.
Qed.

Lemma modified_object_is_in_step_witness :
  let obj := {| left := 30; top := 40; fo_width := 100; fo_height := 100;
                scaleX := 2; scaleY := 1; angle := 0; fo_opacity := 1;
                src := Some "u"; selectable := true; data_id := Some "n" |} in
  let s := sample_store [sample_image_node "n" "u" 1] [] in
  nodes (on_object_modified sample_env (Some obj) s)
  = [merge (sample_image_node "n" "u" 1) (modified_updates obj)]
  /\ needs_update obj (merge (sample_image_node "n" "u" 1) (modified_updates obj)) = false.
Proof.
  intros obj s; split; [reflexivity|].
  apply (modified_object_is_in_step sample_env obj "n" s).
  - reflexivity.
  - discriminate.
  - intros H; discriminate H.
  - intros H; discriminate H.
  - left; reflexivity.
  - reflexivity.
  - vm_compute; discriminate.
  - reflexivity.
Defined.

(** ** The automatic generation fires again *)

(** The effect of the drag-and-drop mode has [nodes] among its
    dependencies and no guard on a generation in flight: when it fires for
    a pair of images, then after an [addNode] (such as the ones that put
    the generated images on the canvas) it fires again, for the same pair,
    as long as the new id is not selected. *)
Theorem generation_fires_again : forall e node s image1 image2,
  generation_pair s = Some (image1, image2) ->
  ~ In (nanoid e 0) (selectedNodeIds s) ->
  generation_pair (addNode e node s) = Some (image1, image2).
Proof.
  intros e node s image1 image2 H Hnew.
  unfold generation_pair in *; unfold addNode.
  rewrite saveHistory_nodes, saveHistory_selection.
  replace (canvasMode (saveHistory e _)) with (canvasMode s) by reflexivity.
  cbn [nodes selectedNodeIds set_nodes].
  destruct (canvasMode s); try discriminate.
  destruct (length (selectedNodeIds s) =? 2)%nat; [|discriminate].
  cbv zeta in *; rewrite filter_app.
  cbn [filter with_id_zIndex id].
  apply includes_false in Hnew; rewrite Hnew; cbn [andb].
  now rewrite app_nil_r.
Qed.

Lemma generation_fires_again_witness :
  let s := {| nodes := [sample_image_node "a" "u" 1; sample_image_node "b" "v" 1];
              selectedNodeIds := ["b"; "a"]; canvasMode := Dragdrop;
              history := []; historyIndex := (-1)%Z |} in
  generation_pair s = Some (sample_image_node "a" "u" 1, sample_image_node "b" "v" 1)
  /\ generation_pair (addNode sample_env (sample_image_node "" "w" 1) s)
     = Some (sample_image_node "a" "u" 1, sample_image_node "b" "v" 1).
Proof.
  intros s; split; [reflexivity|].
  apply (generation_fires_again sample_env (sample_image_node "" "w" 1) s);
    [reflexivity|simpl; intuition discriminate].
Defined.

(** ** Zoom commands *)

(** The zoom stays within [0.1, 8]: from a zoom in that range, any
    sequence of the menu commands (in, out, reset) and wheel events leaves
    the store's zoom in that range. *)
Theorem zoom_stays_in_range : forall (commands : list ZoomCommand) (zoom : Q),
  1 # 10 <= zoom <= 8 ->
  1 # 10 <= fold_left zoom_step commands zoom <= 8.
Proof.
  induction commands as [|c rest IH]; intros zoom Hz; [exact Hz|].
  cbn [fold_left]; apply IH.
  destruct c; unfold zoom_step, handleZoomIn, handleZoomOut, handleZoomReset,
    wheel_zoom, Math_min2, Math_max2; cbv zeta.
  - destruct (Js.gt (zoom * (12 # 10)) 8) eqn:E; [lra|].
    apply gt_false in E; lra.
  - assert (Hd : zoom / (12 # 10) == zoom * (10 # 12)) by (field; lra).
    destruct (Js.gt (1 # 10) (zoom / (12 # 10))) eqn:E; [lra|].
    apply gt_false in E; lra.
  - lra.
  - destruct (Js.gt scaled 8) eqn:E.
    + destruct (Js.gt (1 # 10) 8) eqn:E'; [apply gt_lt in E'|]; lra.
    + apply gt_false in E.
      destruct (Js.gt (1 # 10) scaled) eqn:E'; [lra|].
      apply gt_false in E'; lra.
Qed.

Lemma zoom_stays_in_range_witness :
  1 # 10 <= fold_left zoom_step [ZoomIn; Wheel 100; ZoomIn; ZoomOut; Wheel 0; ZoomOut]
                      initial_zoom <= 8.
Proof.
  apply (zoom_stays_in_range [ZoomIn; Wheel 100; ZoomIn; ZoomOut; Wheel 0; ZoomOut]
           initial_zoom).
  unfold initial_zoom; lra.
Defined.

(** ** Generated asset ids *)

Lemma addGeneratedAssetId_spec : forall aid ids,
  NoDup ids ->
  NoDup (addGeneratedAssetId aid ids)
  /\ forall i, In i (addGeneratedAssetId aid ids) <-> i = aid \/ In i ids.
Proof.
  intros aid ids Hnd; unfold addGeneratedAssetId.
  destruct (Js.includes ids aid) eqn:E.
  - apply includes_In in E; split; [exact Hnd|].
    intros i; split; [now right|intros [->|H]; assumption].
  - apply includes_false in E; split; [now constructor|].
    intros i; simpl; split; intros [H|H]; auto.
Qed.

(** [aiGeneratedAssetIds] is kept as a set: starting from a list without
    repetitions (such as the initial empty list), any sequence of
    [addGeneratedAssetId] calls leaves a list without repetitions that
    holds exactly the ids it held before and the ids handed in; a call
    with an id already present changes nothing. *)
Theorem generated_ids_are_a_set : forall (calls ids : list string),
  NoDup ids ->
  let after := fold_left (fun acc aid => addGeneratedAssetId aid acc) calls ids in
  NoDup after
  /\ (forall i, In i after <-> In i ids \/ In i calls)
  /\ (forall aid, In aid after -> addGeneratedAssetId aid after = after).
Proof.
  induction calls as [|c rest IH]; intros ids Hnd; cbn [fold_left].
  - split; [exact Hnd|split; [intros i; simpl; tauto|]].
    intros aid H; unfold addGeneratedAssetId.
    apply includes_In in H; now rewrite H.
  - destruct (addGeneratedAssetId_spec c ids Hnd) as [Hnd' Hin].
    destruct (IH _ Hnd') as (H1 & H2 & H3).
    split; [exact H1|split; [|exact H3]].
    intros i; rewrite H2, Hin; simpl; intuition.
Qed.

Lemma generated_ids_are_a_set_witness :
  fold_left (fun acc aid => addGeneratedAssetId aid acc) ["a"; "b"; "a"] [] = ["b"; "a"]
  /\ NoDup (fold_left (fun acc aid => addGeneratedAssetId aid acc) ["a"; "b"; "a"] []).
Proof.
  split; [reflexivity|].
  apply (generated_ids_are_a_set ["a"; "b"; "a"] []); constructor.
Defined.

(** ** The drawable registry after a reconciliation pass *)

(** After a run of the effect the registry of drawables holds exactly the
    entries it held before whose key is the id of a node, in their order;
    and the run removes a drawable for exactly the keys that are the id of
    no node. *)
Theorem sync_drops_stale_drawables : forall ns sf,
  objectMap (fst (sync ns sf))
  = filter (fun kv => Js.includes (map id ns) (fst kv)) (objectMap sf)
  /\ (forall k, In k (map fst (objectMap (fst (sync ns sf)))) -> In k (map id ns))
  /\ (forall k, In (Removed k) (snd (sync ns sf))
                <-> In k (map fst (objectMap sf)) /\ ~ In k (map id ns)).
Proof.
  intros ns sf; destruct (sync_registry ns sf) as [H1 H2].
  split; [exact H1|split; [|exact H2]].
  intros k Hk; rewrite H1 in Hk; apply in_map_iff in Hk.
  destruct Hk as (kv & <- & Hkv); apply filter_In in Hkv.
  now apply includes_In.
Qed.

Lemma map_set_key : forall m k v, In k (map fst (map_set m k v)).
Proof.
  induction m as [|[k0 v0] m IH]; intros k v; simpl; [now left|].
  destruct (String.eqb k0 k); simpl; [now left|right; apply IH].
Qed.

(** A load that completes after its node is gone.  The completion callback
    does not look at the node collection: for an image of non-zero size it
    puts the drawable on the canvas and into the registry all the same.
    The next run of the effect, for a collection without that id, takes the
    drawable off again. *)
Theorem late_load_is_removed_by_next_pass : forall ns k img sf node,
  nth_error (loading sf) k = Some node ->
  ~ fo_width img == 0 -> ~ fo_height img == 0 ->
  ~ In (id node) (map id ns) ->
  snd (complete_load k img sf) = [Created (id node)]
  /\ In (id node) (map fst (objectMap (fst (complete_load k img sf))))
  /\ In (Removed (id node)) (snd (sync ns (fst (complete_load k img sf))))
  /\ ~ In (id node) (map fst (objectMap (fst (sync ns (fst (complete_load k img sf)))))).
Proof.
  intros ns k img sf node Hk Hw Hh Hgone.
  assert (Hc : snd (complete_load k img sf) = [Created (id node)]
               /\ In (id node) (map fst (objectMap (fst (complete_load k img sf))))).
  { unfold complete_load; rewrite Hk.
    destruct (Qeq_bool (fo_width img) 0) eqn:Ew;
      [apply Qeq_bool_iff in Ew; contradiction|].
    destruct (Qeq_bool (fo_height img) 0) eqn:Eh;
      [apply Qeq_bool_iff in Eh; contradiction|].
    cbn [orb fst snd objectMap]; split; [reflexivity|apply map_set_key]. }
  destruct Hc as [Hc1 Hc2].
  destruct (sync_registry ns (fst (complete_load k img sf))) as [H1 H2].
  split; [exact Hc1|split; [exact Hc2|split]].
  - apply H2; now split.
  - rewrite H1; intros Hin; apply in_map_iff in Hin.
    destruct Hin as (kv & E & Hkv); apply filter_In in Hkv.
    destruct Hkv as [_ Hkv]; apply includes_In in Hkv; rewrite E in Hkv; contradiction.
Qed.

Lemma late_load_is_removed_by_next_pass_witness :
  let sf := fst (sync [sample_image_node "n" "u" 1] empty_surface) in
  snd (complete_load 0 (sample_loaded_image "u") sf) = [Created "n"]
  /\ In "n" (map fst (objectMap (fst (complete_load 0 (sample_loaded_image "u") sf))))
  /\ In (Removed "n") (snd (sync [] (fst (complete_load 0 (sample_loaded_image "u") sf))))
  /\ ~ In "n" (map fst (objectMap (fst (sync [] (fst (complete_load 0 (sample_loaded_image "u") sf)))))).
Proof.
  intros sf.
  apply (late_load_is_removed_by_next_pass [] 0%nat (sample_loaded_image "u") sf
           (sample_image_node "n" "u" 1)).
  - reflexivity.
  - intros H; discriminate H.
  - intros H; discriminate H.
  - intros [].
Defined.

(** ** The video store and its canvas *)

Lemma video_delete_loop : forall ids st,
  Video.nodes (fold_left (fun st nid => Video.deleteNode nid st) ids st)
  = filter (fun n => negb (Js.includes ids (Video.id n))) (Video.nodes st)
  /\ Video.selectedNodeIds (fold_left (fun st nid => Video.deleteNode nid st) ids st)
     = filter (fun i => negb (Js.includes ids i)) (Video.selectedNodeIds st).
Proof.
  induction ids as [|i ids IH]; intros st; cbn [fold_left].
  - split; symmetry; apply filter_all; reflexivity.
  - destruct (IH (Video.deleteNode i st)) as [H1 H2]; rewrite H1, H2.
    unfold Video.deleteNode; cbn [Video.nodes Video.selectedNodeIds].
    rewrite !filter_filter; split; apply filter_ext; intros a;
      rewrite includes_cons, negb_orb; reflexivity.
Qed.

(** [handleDeleteSelected] of the video canvas deletes node by node; the
    outcome is that of one bulk deletion: the nodes whose id is selected
    are gone (all of them, and no other node), and nothing is selected. *)
Theorem video_delete_selected : forall s,
  Video.nodes (Video.handleDeleteSelected s)
  = filter (fun n => negb (Js.includes (Video.selectedNodeIds s) (Video.id n)))
           (Video.nodes s)
  /\ Video.selectedNodeIds (Video.handleDeleteSelected s) = [].
Proof.
  intros s; unfold Video.handleDeleteSelected.
  destruct (Video.selectedNodeIds s) as [|i ids] eqn:E; cbn [length Nat.eqb].
  - rewrite E; split; [|reflexivity].
    symmetry; apply filter_all; reflexivity.
  - destruct (video_delete_loop (i :: ids) s) as [H1 H2]; rewrite H1, H2, E.
    split; [reflexivity|].
    apply filter_none; intros a Ha; apply negb_false_iff, includes_In; exact Ha.
Qed.

Lemma min_abs_max : forall a b, Math_min2 a b + Video.Math_abs (b - a) == Math_max2 a b.
Proof.
  intros a b; unfold Math_min2, Math_max2, Video.Math_abs.
  destruct (Js.gt a b) eqn:E1; destruct (Js.gt b a) eqn:E2;
    try apply gt_lt in E1; try apply gt_lt in E2;
    try apply gt_false in E1; try apply gt_false in E2.
  - lra.
  - rewrite Qabs_neg by lra; ring.
  - rewrite Qabs_pos by lra; ring.
  - rewrite Qabs_pos by lra; lra.
Qed.

Lemma min2_comm : forall a b, Math_min2 a b == Math_min2 b a.
Proof.
  intros a b; unfold Math_min2.
  destruct (Js.gt a b) eqn:E1; destruct (Js.gt b a) eqn:E2;
    try apply gt_lt in E1; try apply gt_lt in E2;
    try apply gt_false in E1; try apply gt_false in E2; lra.
Qed.

Lemma max2_comm : forall a b, Math_max2 a b == Math_max2 b a.
Proof.
  intros a b; unfold Math_max2.
  destruct (Js.gt a b) eqn:E1; destruct (Js.gt b a) eqn:E2;
    try apply gt_lt in E1; try apply gt_lt in E2;
    try apply gt_false in E1; try apply gt_false in E2; lra.
Qed.

Lemma in_box_spec : forall a b node,
  Video.in_box (Video.selection_box a b) node = true
  <-> Video.x node < Math_max2 (fst a) (fst b)
      /\ Math_min2 (fst a) (fst b) < Video.x node + Video.width node
      /\ Video.y node < Math_max2 (snd a) (snd b)
      /\ Math_min2 (snd a) (snd b) < Video.y node + Video.height node.
Proof.
  intros a b node; unfold Video.in_box, Video.selection_box; cbv zeta.
  cbn [Video.bx Video.by_ Video.bw Video.bh].
  rewrite !andb_true_iff, !gt_lt.
  pose proof (min_abs_max (fst a) (fst b)); pose proof (min_abs_max (snd a) (snd b)).
  intuition lra.
Qed.

(** The selection box of the video canvas.  A node is picked exactly when
    its rectangle meets the rectangle spanned by the corner where the drag
    started and the pointer, with strict comparisons on all four sides;
    dragging from either corner to the other gives the same store; and
    when no node is picked the store, with the selection it has, is left
    as it is. *)
Theorem video_selection_box : forall a b s,
  (forall node,
     Video.in_box (Video.selection_box a b) node = true
     <-> Video.x node < Math_max2 (fst a) (fst b)
         /\ Math_min2 (fst a) (fst b) < Video.x node + Video.width node
         /\ Video.y node < Math_max2 (snd a) (snd b)
         /\ Math_min2 (snd a) (snd b) < Video.y node + Video.height node)
  /\ Video.handleCanvasMouseMove a b s = Video.handleCanvasMouseMove b a s
  /\ ((forall node, In node (Video.nodes s) ->
                    Video.in_box (Video.selection_box a b) node = false) ->
      Video.handleCanvasMouseMove a b s = s)
  /\ Video.nodes (Video.handleCanvasMouseMove a b s) = Video.nodes s.
Proof.
  intros a b s; split; [apply in_box_spec|split; [|split]].
  - unfold Video.handleCanvasMouseMove; cbv zeta.
    rewrite (filter_ext (Video.in_box (Video.selection_box a b))
                        (Video.in_box (Video.selection_box b a))); [reflexivity|].
    intros node.
    pose proof (in_box_spec a b node) as Hab; pose proof (in_box_spec b a node) as Hba.
    pose proof (min2_comm (fst a) (fst b)); pose proof (max2_comm (fst a) (fst b)).
    pose proof (min2_comm (snd a) (snd b)); pose proof (max2_comm (snd a) (snd b)).
    destruct (Video.in_box (Video.selection_box a b) node);
      destruct (Video.in_box (Video.selection_box b a) node); try reflexivity.
    + symmetry; apply Hba; destruct Hab as [Hab _]; specialize (Hab eq_refl).
      intuition lra.
    + apply Hab; destruct Hba as [Hba _]; specialize (Hba eq_refl).
      intuition lra.
  - intros Hnone; unfold Video.handleCanvasMouseMove; cbv zeta.
    now rewrite (filter_none _ _ _ Hnone).
  - unfold Video.handleCanvasMouseMove; cbv zeta.
    now destruct (0 <? _)%nat.
Qed.

(** Moving and resizing in the video store act on separate fields: the two
    actions commute, whichever ids they are handed, and neither changes the
    ids of the nodes or the selection. *)
Theorem video_move_resize_commute : forall i nx ny j w h s,
  Video.moveNode i nx ny (Video.resizeNode j w h s)
  = Video.resizeNode j w h (Video.moveNode i nx ny s)
  /\ map Video.id (Video.nodes (Video.moveNode i nx ny s)) = map Video.id (Video.nodes s)
  /\ map Video.id (Video.nodes (Video.resizeNode j w h s)) = map Video.id (Video.nodes s)
  /\ Video.selectedNodeIds (Video.moveNode i nx ny (Video.resizeNode j w h s))
     = Video.selectedNodeIds s.
Proof.
  intros i nx ny j w h s.
  unfold Video.moveNode, Video.resizeNode, Video.updateNode;
    cbn [Video.nodes Video.selectedNodeIds].
  split; [|split; [|split; [|reflexivity]]].
  - f_equal; rewrite !map_map; apply map_ext; intros n.
    destruct (String.eqb (Video.id n) j) eqn:Ej;
      destruct (String.eqb (Video.id n) i) eqn:Ei;
      cbn [Video.merge Video.id Video.position_updates Video.size_updates
           Video.p_id over];
      rewrite ?Ej, ?Ei; reflexivity.
  - rewrite map_map; apply map_ext; intros n.
    now destruct (String.eqb (Video.id n) i).
  - rewrite map_map; apply map_ext; intros n.
    now destruct (String.eqb (Video.id n) j).
Qed.

(** ** The context menu and the guards of the actions *)

Lemma selectedNodes_length : forall s,
  NoDup (map id (nodes s)) -> NoDup (selectedNodeIds s) -> selection_valid s ->
  length (selectedNodes s) = length (selectedNodeIds s).
Proof.
  intros s Hnd Hsel Hv.
  rewrite <- (length_map id (selectedNodes s)).
  apply Permutation_length, NoDup_Permutation;
    [now apply NoDup_map_filter|exact Hsel|].
  intros i; unfold selectedNodes; rewrite in_map_iff; split.
  - intros (n & <- & Hn); apply filter_In in Hn; now apply includes_In.
  - intros Hi; pose proof (Hv i Hi) as Hin; apply in_map_iff in Hin.
    destruct Hin as (n & <- & Hn); exists n; split; [reflexivity|].
    apply filter_In; split; [exact Hn|now apply includes_In].
Qed.

(** The entries of the context menu are enabled exactly when their action
    does something.  In a store with unique node ids, a selection without
    repetitions whose ids all reference nodes, and a history within its
    bounds: Undo is enabled exactly when [undo] steps the index back by
    one, Redo exactly when [redo] steps it forward by one (both return);
    the arrangement entries are enabled exactly when [alignNodes] captures
    a history entry; and Duplicate is enabled exactly when there is a node
    to copy. *)
Theorem menu_matches_actions : forall alignment s,
  NoDup (map id (nodes s)) -> NoDup (selectedNodeIds s) -> selection_valid s ->
  history_ok s ->
  (exists s1, undo s = Ok s1
              /\ (undo_disabled s = false -> historyIndex s1 = (historyIndex s - 1)%Z)
              /\ (undo_disabled s = true -> s1 = s))
  /\ (exists s2, redo s = Ok s2
                 /\ (redo_disabled s = false -> historyIndex s2 = (historyIndex s + 1)%Z)
                 /\ (redo_disabled s = true -> s2 = s))
  /\ saves_history (AlignNodes alignment) s = negb (align_disabled s)
  /\ (duplicate_disabled s = false <-> selectedNodes s <> []).
Proof.
  intros alignment s Hnd Hsel Hv Hok.
  pose proof (selectedNodes_length s Hnd Hsel Hv) as Hlen.
  pose proof Hok as (_ & Hnil & Hne).
  split; [|split; [|split]].
  - unfold undo, undo_disabled.
    destruct (Z.ltb_spec 0 (historyIndex s)) as [Hpos|Hle].
    + assert (Hh : history s <> []) by (intros E; specialize (Hnil E); lia).
      destruct (restore_ok s (historyIndex s - 1) Hok) as (s' & E & _ & _ & Hi & _);
        [specialize (Hne Hh); lia|].
      exists s'; split; [exact E|split; [intros _; exact Hi|]].
      intros H; apply Z.leb_le in H; lia.
    + exists s; split; [reflexivity|split; [|reflexivity]].
      intros H; apply Z.leb_gt in H; lia.
  - unfold redo, redo_disabled.
    destruct (Z.ltb_spec (historyIndex s) (Z.of_nat (length (history s)) - 1))
      as [Hlt|Hge].
    + assert (Hh : history s <> []).
      { intros E; specialize (Hnil E); rewrite E in Hlt; simpl in Hlt; lia. }
      destruct (restore_ok s (historyIndex s + 1) Hok) as (s' & E & _ & _ & Hi & _);
        [specialize (Hne Hh); lia|].
      exists s'; split; [exact E|split; [intros _; exact Hi|]].
      intros H; apply Z.leb_le in H; lia.
    + exists s; split; [reflexivity|split; [|reflexivity]].
      intros H; apply Z.leb_gt in H; lia.
  - unfold saves_history, align_disabled; now rewrite Hlen.
  - unfold duplicate_disabled; rewrite Nat.eqb_neq, <- Hlen.
    destruct (selectedNodes s); simpl; split; congruence.
Qed.

Lemma menu_matches_actions_witness :
  let s := sample_store [sample_node "a" 10 10 50 50; sample_node "b" 0 0 5 5] ["b"; "a"] in
  (exists s1, undo s = Ok s1
              /\ (undo_disabled s = false -> historyIndex s1 = (historyIndex s - 1)%Z)
              /\ (undo_disabled s = true -> s1 = s))
  /\ (exists s2, redo s = Ok s2
                 /\ (redo_disabled s = false -> historyIndex s2 = (historyIndex s + 1)%Z)
                 /\ (redo_disabled s = true -> s2 = s))
  /\ saves_history (AlignNodes Grid) s = negb (align_disabled s)
  /\ (duplicate_disabled s = false <-> selectedNodes s <> []).
Proof.
  intros s; apply (menu_matches_actions Grid s).
  - repeat constructor; simpl; intuition discriminate.
  - repeat constructor; simpl; intuition discriminate.
  - intros i Hi; simpl in Hi |- *; tauto.
  - unfold history_ok; simpl; repeat split; try lia; discriminate.
Defined.

(** ** Selection validity on the video canvas *)

Lemma video_update_ids : forall nid nx ny s,
  map Video.id (Video.nodes (Video.moveNode nid nx ny s)) = map Video.id (Video.nodes s).
Proof.
  intros nid nx ny s; unfold Video.moveNode, Video.updateNode; cbn [Video.nodes].
  rewrite map_map; apply map_ext; intros n.
  now destruct (String.eqb (Video.id n) nid).
Qed.

Lemma video_handle_valid : forall ev s,
  Video.selection_valid s ->
  match ev with
  | Video.NodeClick nodeId _ | Video.NodeMouseDown nodeId _ =>
      In nodeId (map Video.id (Video.nodes s))
  | _ => True
  end ->
  Video.selection_valid (Video.handle s ev).
Proof.
  intros ev s Hv Hev; unfold Video.selection_valid in *.
  assert (Hselect : forall nodeId modifier,
            In nodeId (map Video.id (Video.nodes s)) ->
            forall i, In i (Video.selectedNodeIds (Video.selectNode nodeId modifier s)) ->
                      In i (map Video.id (Video.nodes (Video.selectNode nodeId modifier s)))).
  { intros nodeId modifier Hn i; unfold Video.selectNode; destruct modifier;
      cbn [Video.nodes Video.selectedNodeIds].
    - destruct (Js.includes (Video.selectedNodeIds s) nodeId).
      + intros Hi; apply filter_In in Hi; now apply Hv.
      + rewrite in_app_iff; intros [Hi|[<-|[]]]; [now apply Hv|exact Hn].
    - intros [<-|[]]; exact Hn. }
  destruct ev; cbn [Video.handle].
  - intros i Hi; unfold Video.addNode in *; cbn [Video.nodes Video.selectedNodeIds] in *.
    rewrite map_app, in_app_iff; left; now apply Hv.
  - intros i [].
  - unfold Video.handleCanvasMouseMove; cbv zeta.
    destruct (0 <? _)%nat; [|exact Hv].
    intros i Hi; cbn [Video.selectNodes Video.nodes Video.selectedNodeIds] in *.
    apply in_map_iff in Hi; destruct Hi as (n & <- & Hn).
    apply filter_In in Hn; now apply in_map.
  - now apply Hselect.
  - unfold Video.handleMouseDown.
    destruct (Js.includes (Video.selectedNodeIds s) nodeId); [exact Hv|now apply Hselect].
  - unfold Video.handleMouseMove.
    destruct (find _ (Video.nodes s)); [|exact Hv].
    intros i Hi; rewrite video_update_ids; now apply Hv.
  - unfold Video.handleDeleteSelected.
    destruct (length (Video.selectedNodeIds s) =? 0)%nat; [exact Hv|].
    destruct (video_delete_loop (Video.selectedNodeIds s) s) as [_ H].
    intros i Hi; rewrite H in Hi; apply filter_In in Hi; destruct Hi as [Hi Hn].
    apply negb_true_iff, includes_false in Hn; contradiction.
Qed.

(** On the video canvas the selection stays valid: from a store in which
    every selected id references a node, any sequence of drops, clicks and
    presses on rendered nodes, drags, selection boxes, background clicks
    and deletions of the selection leaves a store in which every selected
    id references a node. *)
Theorem video_selection_stays_valid : forall (events : list Video.Event) (s : Video.Store),
  Video.selection_valid s ->
  Video.on_rendered_nodes events s ->
  Video.selection_valid (fold_left Video.handle events s).
Proof.
  induction events as [|ev rest IH]; intros s Hv Hev; [exact Hv|].
  cbn [fold_left]; destruct Hev as [H1 H2].
  apply IH; [now apply video_handle_valid|exact H2].
Qed.

Lemma video_selection_stays_valid_witness :
  let node := {| Video.id := ""; Video.type := Video.ImageMedia;
                 Video.x := 10; Video.y := 10; Video.width := 300; Video.height := 200;
                 Video.videoUrl := None; Video.imageUrl := Some "/files/a.png";
                 Video.duration := None; Video.startTime := None; Video.endTime := None;
                 Video.volume := None; Video.muted := None;
                 Video.zIndex := 0; Video.selected := false |} in
  Video.selection_valid
    (fold_left Video.handle
       [Video.AssetDropped "video-1" node; Video.NodeClick "video-1" false;
        Video.NodeDragged "video-1" 5 5; Video.CanvasMouseMove (0, 0) (50, 50);
        Video.DeleteSelected]
       {| Video.nodes := []; Video.selectedNodeIds := [] |}).
Proof.
  intros node.
  apply (video_selection_stays_valid
           [Video.AssetDropped "video-1" node; Video.NodeClick "video-1" false;
            Video.NodeDragged "video-1" 5 5; Video.CanvasMouseMove (0, 0) (50, 50);
            Video.DeleteSelected]
           {| Video.nodes := []; Video.selectedNodeIds := [] |}).
  - intros i [].
  - simpl; intuition.
Defined.
